(** * projectM renderer: legacy colour quantisation, render items, the preset
      transition and the per-pixel warp mesh

    A shallow embedding of

    - [src/libprojectM/Renderer/RenderItem.hpp]  ([color_modulo], [RenderItem]),
    - [src/libprojectM/Renderer/PresetTransition.cpp],
    - [src/libprojectM/MilkdropPreset/PerPixelMesh.hpp].

    C++ [float] and [double] are IEEE-754 binary32 and binary64, and [float]
    expressions are evaluated in binary32 ([FLT_EVAL_METHOD] 0).  They are
    modelled with the standard library's [spec_float] and its operations
    ([SFadd], [SFdiv], ... at precision 24 / exponent bound 128, resp. 53 /
    1024), i.e. with rounding to nearest, ties to even, written out.  The
    only operation the library lacks, [std::fmod], is defined below. *)

From Stdlib Require Import ZArith QArith Qpower Qround Qabs Lia Bool List String.
From Stdlib Require Import Floats.SpecFloat.
Import ListNotations.
Open Scope Z_scope.

(* ================================================================== *)
(** * Floating-point formats *)

(** C++ [float]: binary32. *)
Definition float : Type := spec_float.
(** C++ [double]: binary64. *)
Definition double : Type := spec_float.

(** [std::fmod(x, y)]: the remainder of the division truncated towards zero.
    It has the sign of [x], magnitude below [|y|], and is always exact; it is
    NaN when [x] is infinite or [y] is zero, and [x] when [y] is infinite. *)
Definition SFfmod (prec emax : Z) (x y : spec_float) : spec_float :=
  match x, y with
  | S754_nan, _ | _, S754_nan => S754_nan
  | S754_infinity _, _ => S754_nan
  | _, S754_zero _ => S754_nan
  | S754_zero _, _ => x
  | _, S754_infinity _ => x
  | S754_finite sx mx ex, S754_finite sy my ey =>
      let ez := Z.min ex ey in
      binary_normalize prec emax
        (cond_Zopp sx (Z.rem (Zpos (fst (shl_align mx ex ez)))
                             (Zpos (fst (shl_align my ey ez)))))
        ez sx
  end.

Definition fmodf : float -> float -> float := SFfmod 24 128.
Definition fadd : float -> float -> float := SFadd 24 128.
Definition fdiv : float -> float -> float := SFdiv 24 128.

(** A [float] literal with an integer value, such as [256.0f]. *)
Definition float_of_Z (z : Z) : float := binary_normalize 24 128 z 0 false.

(** [static_cast<float>(x)] for a [double] [x]: rounds to binary32. *)
Definition float_of_double (x : double) : float :=
  match x with
  | S754_finite s m e => binary_round 24 128 s m e
  | _ => x
  end.

(* ================================================================== *)
(** * RenderItem.hpp: [color_modulo] *)

(** [const float m = 256.0f / 255.0f;] *)
Definition color_m : float := fdiv (float_of_Z 256) (float_of_Z 255).

(** [inline float color_modulo(float x)]:
    [return std::fmod(std::fmod(x, m) + m, m);] *)
Definition color_modulo (x : float) : float :=
  fmodf (fadd (fmodf x color_m) color_m) color_m.

(** [inline float color_modulo(double x)]:
    [return color_modulo(static_cast<float>(x));] *)
Definition color_modulo_double (x : double) : float :=
  color_modulo (float_of_double x).

(** ** Values of floats *)

(** The real (here: rational) number a float stands for; 0 for zeros and,
    by convention, for infinities and NaN. *)
Definition SF2Q (x : spec_float) : Q :=
  match x with
  | S754_finite s m e => (inject_Z (cond_Zopp s (Zpos m)) * Qpower 2 e)%Q
  | _ => 0%Q
  end.

Definition is_finite (x : spec_float) : bool :=
  match x with
  | S754_zero _ | S754_finite _ _ _ => true
  | _ => false
  end.

(** A well-formed binary32 number that is neither infinite nor NaN. *)
Definition finite32 (x : float) : bool :=
  is_finite x && valid_binary 24 128 x.

(** The value of a finite binary32 number counted in units of 2^-149, the
    smallest positive binary32 number: every finite [float] is an integer
    multiple of it. *)
Definition ulps (x : float) : Z :=
  match x with
  | S754_finite s m e => cond_Zopp s (Zpos m * 2 ^ (e + 149))
  | _ => 0
  end.

Definition two149 : positive := 2 ^ 149.

(** [color_m] in units of 2^-149. *)
Definition Um : Z := 8421505 * 2 ^ 126.

(** A negative, fractional input: -0.75f. *)
Definition minus_three_quarters : float := S754_finite true 12582912 (-24).

(** ** The reference definition of the specification

    "let m = 256/255. quantize(x) = ((x mod m) + m) mod m, using Euclidean
    (always-non-negative) modulus semantics". *)
Definition Qemod (x m : Q) : Q := (x - m * inject_Z (Qfloor (x / m)))%Q.
Definition quantize_spec (m x : Q) : Q := Qemod (Qemod x m + m) m.
Definition quantize (x : Q) : Q := quantize_spec (256 # 255) x.

(** ** Rounding on integers *)

(** [n / 2^k] rounded to the nearest integer, ties to even. *)
Definition round_shift (n k : Z) : Z :=
  let q := n / 2 ^ k in
  match (2 * (n mod 2 ^ k)) ?= 2 ^ k with
  | Lt => q
  | Eq => if Z.even q then q else q + 1
  | Gt => q + 1
  end.

(** Mantissa and exponent of [n * 2^e] rounded to the format. *)
Definition round_mant_exp (prec emax : Z) (n e : Z) : Z * Z :=
  let E := fexp prec emax (Zdigits2 n + e) in
  if E <=? e then (n * 2 ^ (e - E), E)
  else
    let q := round_shift n (E - e) in
    if q =? 2 ^ prec then (2 ^ (prec - 1), E + 1) else (q, E).

Definition SFencode (prec emax : Z) (s : bool) (me : Z * Z) : spec_float :=
  match fst me with
  | Z0 => S754_zero s
  | Zpos m =>
      if snd me <=? emax - prec then S754_finite s m (snd me) else S754_infinity s
  | Zneg _ => S754_nan
  end.

(** Binary32 rounding of a non-negative value given in units of 2^-149. *)
Definition round32u (u : Z) : Z :=
  let k := Zdigits2 u - 24 in
  if k <=? 0 then u else round_shift u k * 2 ^ k.

(** Whether [n * 2^e] is at least [(2^25 - 1) * 2^103 = 2^128 - 2^103], the
    midpoint between the largest [float] and 2^128: from there on, rounding
    to binary32 overflows. *)
Definition beyond_float_range (n e : Z) : bool :=
  if e <=? 103 then (2 ^ 25 - 1) * 2 ^ (103 - e) <=? n
  else 2 ^ 25 - 1 <=? n * 2 ^ (e - 103).

(** The value of [x] counted in units of [2^c], for [c] at most the exponent
    of [x]. *)
Definition scaled (c : Z) (x : spec_float) : Z :=
  match x with
  | S754_finite s m e => cond_Zopp s (Zpos m * 2 ^ (e - c))
  | _ => 0
  end.

(** [n / m] rounded to the nearest integer, ties to even. *)
Definition round_div (n m : Z) : Z :=
  let q := n / m in
  match (2 * (n mod m)) ?= m with
  | Lt => q
  | Eq => if Z.even q then q else q + 1
  | Gt => q + 1
  end.

(** Mantissa and exponent of [(n / m) * 2^e] rounded to the format. *)
Definition round_ratio_mant_exp (prec emax : Z) (n m e : Z) : Z * Z :=
  let E := Z.max (fexp prec emax (Zdigits2 (n / m) + e)) e in
  let c := round_div n (m * 2 ^ (E - e)) in
  let k2 := fexp prec emax (Zdigits2 c + E) - E in
  if 0 <? k2 then (c / 2 ^ k2, E + k2) else (c, E).

(** What [shr_1] keeps after [j] steps on [n]: the quotient, and where the
    discarded low part lies relative to one half. *)
Definition shr_inv (n : Z) (j : Z) (mrs : shr_record) : Prop :=
  shr_m mrs = n / 2 ^ j /\
  match shr_r mrs, shr_s mrs with
  | false, false => n mod 2 ^ j = 0
  | false, true => 0 < 2 * (n mod 2 ^ j) < 2 ^ j
  | true, false => 2 * (n mod 2 ^ j) = 2 ^ j
  | true, true => 2 ^ j < 2 * (n mod 2 ^ j)
  end.

(** What a shift record holds of the quotient [n / m]: its integer part, and
    where the remainder lies relative to one half. *)
Definition shr_ratio (n m : Z) (mrs : shr_record) : Prop :=
  shr_m mrs = n / m /\
  match shr_r mrs, shr_s mrs with
  | false, false => n mod m = 0
  | false, true => 0 < 2 * (n mod m) < m
  | true, false => 2 * (n mod m) = m
  | true, true => m < 2 * (n mod m)
  end.

(* ================================================================== *)
(** * RenderItem.hpp: [class RenderItem] *)

Module RenderItem.

(** [struct Point { float x{}; float y{}; }] and its siblings. *)
Record Point : Type := { x : float; y : float }.

Record ColoredPoint : Type :=
  { cx : float; cy : float; cr : float; cg : float; cb : float; ca : float }.

Record TexturedPoint : Type :=
  { tx : float; ty : float; tr : float; tg : float; tb : float; ta : float;
    tu : float; tv : float }.

(** [Point() = default;] with the member initialisers [float x{}; float y{};]. *)
Definition Point_default : Point :=
  {| x := S754_zero false; y := S754_zero false |}.

(** The two virtual member functions.  [St] is everything a member function
    can observe or change: the object's own fields and the state of the
    graphics backend. *)
Record vtable (St : Type) : Type :=
  { InitVertexAttrib : St -> St;
    Init : St -> St }.

Arguments InitVertexAttrib {St} _ _.
Arguments Init {St} _ _.

(** [virtual void Init() {}] : the body of the base class. *)
Definition Init_base {St : Type} (s : St) : St := s.

(** A concrete render item.  [InitVertexAttrib] is pure virtual
    ([= 0]), so every subclass supplies it; [Init] is overridden only when
    [initOverride] is given, otherwise the base-class body is inherited. *)
Definition subclass {St : Type} (initVertexAttrib : St -> St)
    (initOverride : option (St -> St)) : vtable St :=
  {| InitVertexAttrib := initVertexAttrib;
     Init := match initOverride with
             | Some f => f
             | None => Init_base
             end |}.

End RenderItem.

(* ================================================================== *)
(** * PresetTransition.cpp *)

Module PresetTransition.

Definition dsub : double -> double -> double := SFsub 53 1024.
Definition ddiv : double -> double -> double := SFdiv 53 1024.
Definition double_of_Z (z : Z) : double := binary_normalize 53 1024 z 0 false.

(** [std::max(a, b)] is [(a < b) ? b : a]; [std::min(a, b)] is
    [(b < a) ? b : a]. *)
Definition dmax (a b : double) : double := if SFltb a b then b else a.
Definition dmin (a b : double) : double := if SFltb b a then b else a.

Section Transition.

(** The shader object and what a draw would hand to the GPU are external. *)
Variables Shader Preset RenderContext FrameAudioData RenderCommand : Type.

Record t : Type :=
  { m_transitionShader : option Shader;
    m_durationSeconds : double;
    m_transitionStartTime : double;
    m_staticRandomValues : list Z }.

(** The constructor; the four draws of [std::mt19937] are inputs. *)
Definition make (transitionShader : option Shader)
    (durationSeconds transitionStartTime : double) (r0 r1 r2 r3 : Z) : t :=
  {| m_transitionShader := transitionShader;
     m_durationSeconds := durationSeconds;
     m_transitionStartTime := transitionStartTime;
     m_staticRandomValues := [r0; r1; r2; r3] |}.

Definition IsDone (self : t) (currentFrameTime : double) : bool :=
  let secondsSinceStart := dsub currentFrameTime (m_transitionStartTime self) in
  SFleb (m_durationSeconds self) (double_of_Z 0)
  || SFleb (m_durationSeconds self) secondsSinceStart.

Definition Progress (self : t) (currentFrameTime : double) : double :=
  dmin (dmax (ddiv (dsub currentFrameTime (m_transitionStartTime self))
                   (m_durationSeconds self))
             (double_of_Z 0))
       (double_of_Z 1).

(** [void PresetTransition::Draw(...)]: the body is empty.  The result is the
    object after the call and the rendering commands issued. *)
Definition Draw (self : t) (oldPreset newPreset : Preset)
    (context : RenderContext) (audioData : FrameAudioData)
    (currentFrameTime : double) : t * list RenderCommand :=
  (self, []).

End Transition.

Arguments m_transitionShader {Shader} _.
Arguments m_durationSeconds {Shader} _.
Arguments m_transitionStartTime {Shader} _.
Arguments m_staticRandomValues {Shader} _.
Arguments make {Shader} _ _ _ _ _ _ _.
Arguments IsDone {Shader} _ _.
Arguments Progress {Shader} _ _.
Arguments Draw {Shader Preset RenderContext FrameAudioData} RenderCommand _ _ _ _ _ _.

(** A transition without a shader, for the examples. *)
Definition exampleTransition (durationSeconds transitionStartTime : double) : t unit :=
  make None durationSeconds transitionStartTime 1 2 3 4.

End PresetTransition.

(* ================================================================== *)
(** * PerPixelMesh.hpp *)

Module PerPixelMesh.

(** ** What the header declares *)

(** OpenGL enumerants used by the member initialiser of [m_perPixelSampler]
    ([GL_CLAMP_TO_EDGE] is 0x812F, [GL_LINEAR] is 0x2601). *)
Definition GL_CLAMP_TO_EDGE : Z := 33071.
Definition GL_LINEAR : Z := 9729.

(** [Renderer::Sampler(wrapMode, filterMode)]. *)
Record Sampler : Type := { wrapMode : Z; filterMode : Z }.

(** [struct RadiusAngle { float radius{}; float angle{}; }] *)
Record RadiusAngle : Type := { radius : float; angle : float }.

(** [struct ZoomRotWarp { float zoom{}; float zoomExp{}; float rot{}; float warp{}; }] *)
Record ZoomRotWarp : Type :=
  { zoom : float; zoomExp : float; rot : float; warp : float }.

Definition RadiusAngle_default : RadiusAngle :=
  {| radius := S754_zero false; angle := S754_zero false |}.

Definition ZoomRotWarp_default : ZoomRotWarp :=
  {| zoom := S754_zero false; zoomExp := S754_zero false;
     rot := S754_zero false; warp := S754_zero false |}.

(** [sizeof(RadiusAngle) / sizeof(float)] and [sizeof(ZoomRotWarp) / sizeof(float)]:
    the component counts handed to [glVertexAttribPointer]. *)
Definition RadiusAngle_components : Z := 2.
Definition ZoomRotWarp_components : Z := 4.

(** [class MilkdropShader] is only forward-declared; the mesh needs its source
    and, once compiled, its program. *)
Record MilkdropShader : Type := { code : string; program : option Z }.

(** The data members, with one ghost field: [allocations] counts the GPU
    buffers allocated so far. *)
Record t : Type :=
  { m_gridSizeX : Z;
    m_gridSizeY : Z;
    m_viewportWidth : Z;
    m_viewportHeight : Z;
    m_warpMesh : nat;  (* number of vertices of the mesh topology *)
    m_radiusAngleBuffer : list RadiusAngle;
    m_zoomRotWarpBuffer : list ZoomRotWarp;
    m_centerBuffer : list RenderItem.Point;
    m_distanceBuffer : list RenderItem.Point;
    m_stretchBuffer : list RenderItem.Point;
    m_perPixelMeshShader : option Z;  (* the cached default warp shader *)
    m_warpShader : option MilkdropShader;  (* the preset's warp shader *)
    m_perPixelSampler : Sampler;
    allocations : nat }.

(** The state after the default member initialisers: [int m_gridSizeX{}], empty
    buffers, no shaders, and
    [Renderer::Sampler m_perPixelSampler{GL_CLAMP_TO_EDGE, GL_LINEAR}]. *)
Definition init : t :=
  {| m_gridSizeX := 0; m_gridSizeY := 0;
     m_viewportWidth := 0; m_viewportHeight := 0;
     m_warpMesh := 0%nat;
     m_radiusAngleBuffer := []; m_zoomRotWarpBuffer := [];
     m_centerBuffer := []; m_distanceBuffer := []; m_stretchBuffer := [];
     m_perPixelMeshShader := None; m_warpShader := None;
     m_perPixelSampler := {| wrapMode := GL_CLAMP_TO_EDGE; filterMode := GL_LINEAR |};
     allocations := 0%nat |}.

(** ** External collaborators *)

(** The part of [PresetState] the mesh reads. *)
Record PresetState : Type :=
  { perPixelMeshX : Z;
    perPixelMeshY : Z;
    viewportSizeX : Z;
    viewportSizeY : Z;
    warpShader : option string;  (* source of the preset's warp shader, if any *)
    mainTexture : Z }.           (* the previous frame *)

(** What the procedural evaluator returns for one vertex. *)
Record VertexValues : Type :=
  { v_zoomRotWarp : ZoomRotWarp;
    v_center : RenderItem.Point;
    v_distance : RenderItem.Point;
    v_stretch : RenderItem.Point }.

(** The per-frame (uniform) values. *)
Record PerFrameContext : Type := { frameValues : VertexValues }.

(** The per-pixel code of the preset, if it defines any. *)
Definition PerPixelContext : Type := option (RadiusAngle -> VertexValues).

Inductive exn : Type :=
| ShaderException (message : string)
| AllocationFailure.

Inductive Result (A : Type) : Type :=
| Ok (a : A)
| Raise (e : exn).

Arguments Ok {A} _.
Arguments Raise {A} _.

Definition bind {A B : Type} (r : Result A) (k : A -> Result B) : Result B :=
  match r with
  | Ok a => k a
  | Raise e => Raise e
  end.

Notation "x <- r ;; k" := (bind r (fun x => k))
  (at level 61, r at next level, right associativity).

(** The shader compiler, the GPU allocator and the polar-coordinate
    computation of a grid vertex. *)
Record Backend : Type :=
  { compile : string -> Result Z;
    allocate : nat -> bool;
    polar : PresetState -> nat -> RadiusAngle;
    defaultWarpShader : Z }.

(** Which program a draw call ran. *)
Inductive ShaderPath : Type :=
| CustomShader (p : Z)
| DefaultShader (p : Z).

(** One draw call as the GPU sees it. *)
Record DrawCall : Type :=
  { dc_shader : ShaderPath;
    dc_texture : Z;
    dc_sampler : Sampler;
    dc_vertices : nat }.

(** ** Member functions

    Their bodies are in [PerPixelMesh.cpp], which is not among the sources;
    only the declarations above are. *)

Definition gridChanged (ps : PresetState) (m : t) : bool :=
  negb ((m_gridSizeX m =? perPixelMeshX ps) && (m_gridSizeY m =? perPixelMeshY ps)).

Definition viewportChanged (ps : PresetState) (m : t) : bool :=
  negb ((m_viewportWidth m =? viewportSizeX ps)
        && (m_viewportHeight m =? viewportSizeY ps)).

(** Modelled from the spec: the body of [InitializeMesh], step 2 ("reallocate
    all five GPU buffers to hold X*Y elements, rebuild the mesh topology");
    an allocation the GPU cannot satisfy is fatal and propagated. *)
Definition reallocate (B : Backend) (ps : PresetState) (m : t) : Result t :=
  let n := Z.to_nat (perPixelMeshX ps * perPixelMeshY ps) in
  if allocate B n then
    Ok {| m_gridSizeX := perPixelMeshX ps;
          m_gridSizeY := perPixelMeshY ps;
          m_viewportWidth := m_viewportWidth m;
          m_viewportHeight := m_viewportHeight m;
          m_warpMesh := n;
          m_radiusAngleBuffer := repeat RadiusAngle_default n;
          m_zoomRotWarpBuffer := repeat ZoomRotWarp_default n;
          m_centerBuffer := repeat RenderItem.Point_default n;
          m_distanceBuffer := repeat RenderItem.Point_default n;
          m_stretchBuffer := repeat RenderItem.Point_default n;
          m_perPixelMeshShader := m_perPixelMeshShader m;
          m_warpShader := m_warpShader m;
          m_perPixelSampler := m_perPixelSampler m;
          allocations := (allocations m + 5)%nat |}
  else Raise AllocationFailure.

(** Modelled from the spec: the body of [InitializeMesh], step 3 ("recompute
    the static per-vertex radius/angle values ... and re-upload"). *)
Definition recomputeStatic (B : Backend) (ps : PresetState) (m : t) : t :=
  {| m_gridSizeX := m_gridSizeX m;
     m_gridSizeY := m_gridSizeY m;
     m_viewportWidth := viewportSizeX ps;
     m_viewportHeight := viewportSizeY ps;
     m_warpMesh := m_warpMesh m;
     m_radiusAngleBuffer :=
       map (polar B ps) (seq 0 (List.length (m_radiusAngleBuffer m)));
     m_zoomRotWarpBuffer := m_zoomRotWarpBuffer m;
     m_centerBuffer := m_centerBuffer m;
     m_distanceBuffer := m_distanceBuffer m;
     m_stretchBuffer := m_stretchBuffer m;
     m_perPixelMeshShader := m_perPixelMeshShader m;
     m_warpShader := m_warpShader m;
     m_perPixelSampler := m_perPixelSampler m;
     allocations := allocations m |}.

(** Modelled from the spec: [InitializeMesh] ("If resolution changed since
    last frame: reallocate ...; if viewport size changed (even without
    resolution change): recompute the static per-vertex radius/angle
    values"). *)
Definition InitializeMesh (B : Backend) (ps : PresetState) (m : t) : Result t :=
  let resized := gridChanged ps m in
  let dirty := resized || viewportChanged ps m in
  m1 <- (if resized then reallocate B ps m else Ok m) ;;
  Ok (if dirty then recomputeStatic B ps m1 else m1).

(** Modelled from the spec: [CalculateMesh] ("for every grid vertex, in
    row-major order: supply its cached radius/angle ... write these into the
    corresponding GPU buffer slots.  If the preset defines no per-pixel code,
    fall back to using the per-frame values for every grid point"). *)
Definition CalculateMesh (pf : PerFrameContext) (pp : PerPixelContext) (m : t) : t :=
  let eval := match pp with
              | Some perPixel => perPixel
              | None => fun _ => frameValues pf
              end in
  let out := map eval (m_radiusAngleBuffer m) in
  {| m_gridSizeX := m_gridSizeX m;
     m_gridSizeY := m_gridSizeY m;
     m_viewportWidth := m_viewportWidth m;
     m_viewportHeight := m_viewportHeight m;
     m_warpMesh := m_warpMesh m;
     m_radiusAngleBuffer := m_radiusAngleBuffer m;
     m_zoomRotWarpBuffer := map v_zoomRotWarp out;
     m_centerBuffer := map v_center out;
     m_distanceBuffer := map v_distance out;
     m_stretchBuffer := map v_stretch out;
     m_perPixelMeshShader := m_perPixelMeshShader m;
     m_warpShader := m_warpShader m;
     m_perPixelSampler := m_perPixelSampler m;
     allocations := allocations m |}.

Definition set_warpShader (sh : option MilkdropShader) (m : t) : t :=
  {| m_gridSizeX := m_gridSizeX m;
     m_gridSizeY := m_gridSizeY m;
     m_viewportWidth := m_viewportWidth m;
     m_viewportHeight := m_viewportHeight m;
     m_warpMesh := m_warpMesh m;
     m_radiusAngleBuffer := m_radiusAngleBuffer m;
     m_zoomRotWarpBuffer := m_zoomRotWarpBuffer m;
     m_centerBuffer := m_centerBuffer m;
     m_distanceBuffer := m_distanceBuffer m;
     m_stretchBuffer := m_stretchBuffer m;
     m_perPixelMeshShader := m_perPixelMeshShader m;
     m_warpShader := sh;
     m_perPixelSampler := m_perPixelSampler m;
     allocations := allocations m |}.

Definition set_perPixelMeshShader (sh : option Z) (m : t) : t :=
  {| m_gridSizeX := m_gridSizeX m;
     m_gridSizeY := m_gridSizeY m;
     m_viewportWidth := m_viewportWidth m;
     m_viewportHeight := m_viewportHeight m;
     m_warpMesh := m_warpMesh m;
     m_radiusAngleBuffer := m_radiusAngleBuffer m;
     m_zoomRotWarpBuffer := m_zoomRotWarpBuffer m;
     m_centerBuffer := m_centerBuffer m;
     m_distanceBuffer := m_distanceBuffer m;
     m_stretchBuffer := m_stretchBuffer m;
     m_perPixelMeshShader := sh;
     m_warpShader := m_warpShader m;
     m_perPixelSampler := m_perPixelSampler m;
     allocations := allocations m |}.

(** Modelled from the spec: [LoadWarpShader] ("if the active preset specifies
    a custom warp shader, resolve and retain ... it; otherwise leave it unset,
    signaling default-path rendering"). *)
Definition LoadWarpShader (ps : PresetState) (m : t) : t :=
  set_warpShader
    (match warpShader ps with
     | Some source => Some {| code := source; program := None |}
     | None => None
     end) m.

(** Modelled from the spec: [CompileWarpShader] ("triggers compilation of
    the custom warp shader program ...; reports failure (shader compile error)
    without crashing - compilation failure must downgrade gracefully to the
    default shader path"; the diagnostic goes to the log, which is the second
    component of the result). *)
Definition CompileWarpShader (B : Backend) (ps : PresetState) (m : t)
    : Result (t * list string) :=
  match m_warpShader m with
  | None => Ok (m, [])
  | Some shader =>
      match compile B (code shader) with
      | Ok p =>
          Ok (set_warpShader (Some {| code := code shader; program := Some p |}) m, [])
      | Raise (ShaderException message) => Ok (set_warpShader None m, [message])
      | Raise AllocationFailure => Raise AllocationFailure
      end
  end.

(** Modelled from the spec: [GetDefaultWarpShader] ("built lazily on first use
    and reused thereafter"). *)
Definition GetDefaultWarpShader (B : Backend) (m : t) : Z * t :=
  match m_perPixelMeshShader m with
  | Some p => (p, m)
  | None => (defaultWarpShader B,
             set_perPixelMeshShader (Some (defaultWarpShader B)) m)
  end.

(** Modelled from the spec: [WarpedBlit] ("Bind the previous-frame texture as
    input.  If a valid custom warp shader is present, bind it ... then issue
    the draw call over the full grid topology ...  If no custom shader is
    present or compilation failed, use a default shader"; the texture is bound
    with the member sampler [m_perPixelSampler] on either path). *)
Definition WarpedBlit (B : Backend) (ps : PresetState) (m : t) : t * DrawCall :=
  match m_warpShader m with
  | Some {| code := _; program := Some p |} =>
      (m, {| dc_shader := CustomShader p;
             dc_texture := mainTexture ps;
             dc_sampler := m_perPixelSampler m;
             dc_vertices := m_warpMesh m |})
  | _ =>
      let '(p, m') := GetDefaultWarpShader B m in
      (m', {| dc_shader := DefaultShader p;
              dc_texture := mainTexture ps;
              dc_sampler := m_perPixelSampler m';
              dc_vertices := m_warpMesh m' |})
  end.

(** Modelled from the spec: [Draw] ("the per-frame entry point; orchestrates
    mesh (re)initialization, per-vertex evaluation, and the warped draw"). *)
Definition Draw (B : Backend) (ps : PresetState) (pf : PerFrameContext)
    (pp : PerPixelContext) (m : t) : Result (t * DrawCall) :=
  m1 <- InitializeMesh B ps m ;;
  Ok (WarpedBlit B ps (CalculateMesh pf pp m1)).

(** One frame's arguments to [Draw]. *)
Definition Frame : Type := (PresetState * PerFrameContext * PerPixelContext)%type.

(** [Draw] called once per frame, in order; the draw calls are collected. *)
Fixpoint DrawFrames (B : Backend) (frames : list Frame) (m : t)
    : Result (t * list DrawCall) :=
  match frames with
  | [] => Ok (m, [])
  | (ps, pf, pp) :: rest =>
      r <- Draw B ps pf pp m ;;
      r' <- DrawFrames B rest (fst r) ;;
      Ok (fst r', snd r :: snd r')
  end.

(** The states a mesh object goes through: constructed, then any sequence of
    calls of its public member functions that return normally. *)
Inductive reachable (B : Backend) : t -> Prop :=
| reach_init : reachable B init
| reach_load (ps : PresetState) (m : t) :
    reachable B m -> reachable B (LoadWarpShader ps m)
| reach_compile (ps : PresetState) (m m' : t) (log : list string) :
    reachable B m -> CompileWarpShader B ps m = Ok (m', log) -> reachable B m'
| reach_draw (ps : PresetState) (pf : PerFrameContext) (pp : PerPixelContext)
    (m m' : t) (call : DrawCall) :
    reachable B m -> Draw B ps pf pp m = Ok (m', call) -> reachable B m'.

(** The data-model invariant: each of the five buffers has one element per
    grid vertex. *)
Definition sized (m : t) : Prop :=
  let n := Z.to_nat (m_gridSizeX m * m_gridSizeY m) in
  List.length (m_radiusAngleBuffer m) = n /\
  List.length (m_zoomRotWarpBuffer m) = n /\
  List.length (m_centerBuffer m) = n /\
  List.length (m_distanceBuffer m) = n /\
  List.length (m_stretchBuffer m) = n.

Definition usesDefaultShader (call : DrawCall) : bool :=
  match dc_shader call with
  | DefaultShader _ => true
  | CustomShader _ => false
  end.

(** ** Example data

    The scenario of the specification: grid resolution (4,4), viewport
    800x600; the evaluator returns zoom 1, rotation 0 and warp 0. *)

Definition exampleBackend (compiles : bool) : Backend :=
  {| compile := fun _ =>
       if compiles then Ok 7 else Raise (ShaderException "syntax error");
     allocate := fun _ => true;
     polar := fun _ _ => RadiusAngle_default;
     defaultWarpShader := 1 |}.

Definition examplePreset (x y : Z) : PresetState :=
  {| perPixelMeshX := x; perPixelMeshY := y;
     viewportSizeX := 800; viewportSizeY := 600;
     warpShader := Some "shader_body"%string;
     mainTexture := 3 |}.

Definition exampleShader : MilkdropShader :=
  {| code := "shader_body"; program := None |}.

Definition exampleFrame : PerFrameContext :=
  {| frameValues :=
       {| v_zoomRotWarp := {| zoom := float_of_Z 1; zoomExp := float_of_Z 1;
                              rot := float_of_Z 0; warp := float_of_Z 0 |};
          v_center := RenderItem.Point_default;
          v_distance := RenderItem.Point_default;
          v_stretch := RenderItem.Point_default |} |}.

(** The mesh after [LoadWarpShader], and after a successful
    [CompileWarpShader] on top. *)
Definition exampleLoaded : t := LoadWarpShader (examplePreset 4 4) init.

Definition exampleCompiled : t :=
  set_warpShader (Some {| code := "shader_body"; program := Some 7 |}) exampleLoaded.

End PerPixelMesh.

(* ================================================================== *)
(** * Proofs: binary32 arithmetic *)

(* ------------------------------------------------------------------ *)
(** ** Digit counts and right shifts of [SpecFloat] *)

(** [digits2_pos p] is the number of binary digits of [p]. *)
Lemma digits2_pos_bounds (p : positive) :
  2 ^ (Zpos (digits2_pos p) - 1) <= Zpos p < 2 ^ (Zpos (digits2_pos p)).
Proof.
  assert (Hstep : forall d : positive,
             2 ^ Zpos d = 2 * 2 ^ (Zpos d - 1) /\
             2 ^ (Zpos (Pos.succ d) - 1) = 2 ^ Zpos d /\
             2 ^ Zpos (Pos.succ d) = 2 * 2 ^ Zpos d).
  { intro d. rewrite Pos2Z.inj_succ. repeat split.
    - rewrite <- Z.pow_succ_r by lia. f_equal. lia.
    - f_equal. lia.
    - apply Z.pow_succ_r. lia. }
  induction p as [p IH | p IH |]; cbn [digits2_pos].
  - destruct (Hstep (digits2_pos p)) as (H1 & H2 & H3).
    rewrite H2, H3. change (Zpos p~1) with (2 * Zpos p + 1). lia.
  - destruct (Hstep (digits2_pos p)) as (H1 & H2 & H3).
    rewrite H2, H3. change (Zpos p~0) with (2 * Zpos p). lia.
  - cbn. lia.
Qed.

Lemma digits2_unique (n d : Z) :
  0 < d -> 2 ^ (d - 1) <= n < 2 ^ d ->
  forall p, n = Zpos p -> Zpos (digits2_pos p) = d.
Proof.
  intros Hd Hn p ->. pose proof (digits2_pos_bounds p) as Hp.
  set (d' := Zpos (digits2_pos p)) in *.
  assert (0 < d') by (unfold d'; lia).
  destruct (Z.lt_trichotomy d' d) as [Hlt | [Heq | Hgt]]; [exfalso | assumption | exfalso].
  - assert (2 ^ d' <= 2 ^ (d - 1)) by (apply Z.pow_le_mono_r; lia). lia.
  - assert (2 ^ d <= 2 ^ (d' - 1)) by (apply Z.pow_le_mono_r; lia). lia.
Qed.

(** [iter_pos] iterates [Pos.to_nat p] times. *)
Lemma iter_pos_nat {A} (f : A -> A) (p : positive) (x : A) :
  iter_pos f p x = Nat.iter (Pos.to_nat p) f x.
Proof.
  revert x. induction p as [p IH | p IH |]; intro x; cbn [iter_pos].
  - rewrite !IH, Pos2Nat.inj_xI.
    replace (S (2 * Pos.to_nat p))%nat with (Pos.to_nat p + (Pos.to_nat p + 1))%nat by lia.
    rewrite !Nat.iter_add. reflexivity.
  - rewrite !IH, Pos2Nat.inj_xO.
    replace (2 * Pos.to_nat p)%nat with (Pos.to_nat p + Pos.to_nat p)%nat by lia.
    rewrite Nat.iter_add. reflexivity.
  - reflexivity.
Qed.


(** One more [shr_1] keeps the invariant [shr_inv]. *)
Lemma shr_1_inv (n j : Z) (mrs : shr_record) :
  0 <= n -> 0 <= j -> shr_inv n j mrs -> shr_inv n (j + 1) (shr_1 mrs).
Proof.
  intros Hn Hj [Hm Hl].
  assert (Hpow : 0 < 2 ^ j) by (apply Z.pow_pos_nonneg; lia).
  assert (Hpow1 : 2 ^ (j + 1) = 2 * 2 ^ j) by (rewrite Z.pow_add_r by lia; lia).
  pose proof (Z.mod_pos_bound n (2 ^ j) Hpow) as Hlow.
  assert (Hdiv : n / 2 ^ (j + 1) = (n / 2 ^ j) / 2).
  { rewrite Hpow1, Z.mul_comm. symmetry. apply Z.div_div; lia. }
  assert (Hmod : n mod 2 ^ (j + 1) = 2 ^ j * ((n / 2 ^ j) mod 2) + n mod 2 ^ j).
  { rewrite Hpow1, Z.mul_comm, Z.rem_mul_r by lia. lia. }
  destruct mrs as [m r s]. cbn [shr_m shr_r shr_s] in *.
  unfold shr_inv. rewrite Hdiv, Hmod, Hpow1, <- Hm.
  assert (Hm0 : 0 <= m) by (rewrite Hm; apply Z.div_pos; lia).
  destruct m as [| [p | p |] | p]; try lia; cbn [shr_1 shr_m shr_r shr_s].
  - (* 0 *) split; [reflexivity |]. change (0 mod 2) with 0.
    destruct r, s; cbn [orb]; lia.
  - (* xI *) split; [change (Zpos p~1) with (2 * Zpos p + 1); apply Z.div_unique with 1; lia |].
    replace (Zpos p~1 mod 2) with 1 by (change (Zpos p~1) with (2 * Zpos p + 1); apply Z.mod_unique with (Zpos p); lia).
    destruct r, s; cbn [orb]; lia.
  - (* xO *) split; [change (Zpos p~0) with (2 * Zpos p); apply Z.div_unique with 0; lia |].
    replace (Zpos p~0 mod 2) with 0 by (change (Zpos p~0) with (2 * Zpos p); apply Z.mod_unique with (Zpos p); lia).
    destruct r, s; cbn [orb]; lia.
  - (* 1 *) split; [reflexivity |]. change (1 mod 2) with 1.
    destruct r, s; cbn [orb]; lia.
Qed.

Lemma shr_iter_inv (n : Z) (k : nat) :
  0 <= n ->
  shr_inv n (Z.of_nat k) (Nat.iter k shr_1 (Build_shr_record n false false)).
Proof.
  intro Hn. induction k as [| k IH].
  - cbn. split; cbn; [rewrite Z.div_1_r; reflexivity | apply Z.mod_1_r].
  - rewrite Nat2Z.inj_succ, <- Z.add_1_r. cbn [Nat.iter]. apply shr_1_inv; [lia | lia | exact IH].
Qed.

(** Shifting right with [shr_1] and rounding on the round and sticky bits is
    rounding [n / 2^p] to nearest, ties to even. *)
Lemma shr_round (n : Z) (p : positive) :
  0 <= n ->
  let mrs := iter_pos shr_1 p (Build_shr_record n false false) in
  round_nearest_even (shr_m mrs) (loc_of_shr_record mrs) = round_shift n (Zpos p).
Proof.
  intros Hn mrs. subst mrs. rewrite iter_pos_nat.
  pose proof (shr_iter_inv n (Pos.to_nat p) Hn) as [Hm Hl].
  rewrite positive_nat_Z in *.
  destruct (Nat.iter (Pos.to_nat p) shr_1 _) as [m r s]. cbn [shr_m shr_r shr_s] in *.
  unfold round_shift. rewrite <- Hm.
  assert (Hpow : 0 < 2 ^ Zpos p) by (apply Z.pow_pos_nonneg; lia).
  destruct r, s; cbn [loc_of_shr_record round_nearest_even].
  - replace (2 * (n mod 2 ^ Zpos p) ?= 2 ^ Zpos p) with Gt by (symmetry; apply Z.compare_gt_iff; lia). reflexivity.
  - replace (2 * (n mod 2 ^ Zpos p) ?= 2 ^ Zpos p) with Eq by (symmetry; apply Z.compare_eq_iff; lia). reflexivity.
  - replace (2 * (n mod 2 ^ Zpos p) ?= 2 ^ Zpos p) with Lt by (symmetry; apply Z.compare_lt_iff; lia). reflexivity.
  - replace (2 * (n mod 2 ^ Zpos p) ?= 2 ^ Zpos p) with Lt by (symmetry; apply Z.compare_lt_iff; lia). reflexivity.
Qed.

(* ------------------------------------------------------------------ *)
(** ** [binary_round] computes [round_mant_exp] *)

Lemma digits2_pos_shift (p d : positive) :
  Zpos (digits2_pos (Pos.iter xO p d)) = Zpos (digits2_pos p) + Zpos d.
Proof.
  revert p. induction d as [| d IH] using Pos.peano_ind; intro p.
  - cbn [Pos.iter digits2_pos]. lia.
  - rewrite Pos.iter_succ. cbn [digits2_pos]. rewrite Pos2Z.inj_succ, IH. lia.
Qed.

Lemma pos_iter_xO (p d : positive) :
  Zpos (Pos.iter xO p d) = Zpos p * 2 ^ Zpos d.
Proof.
  revert p. induction d as [| d IH] using Pos.peano_ind; intro p.
  - cbn [Pos.iter]. change (2 ^ 1) with 2. lia.
  - rewrite Pos.iter_succ, Pos2Z.inj_succ, Z.pow_succ_r by lia.
    change (Zpos (Pos.iter xO p d)~0) with (2 * Zpos (Pos.iter xO p d)).
    rewrite IH. lia.
Qed.

Lemma round_shift_bounds (n k : Z) :
  0 <= n -> 0 < k ->
  n / 2 ^ k <= round_shift n k <= n / 2 ^ k + 1.
Proof.
  intros Hn Hk. unfold round_shift.
  destruct (2 * (n mod 2 ^ k) ?= 2 ^ k); [destruct (Z.even (n / 2 ^ k)) | |]; lia.
Qed.

Section Rounding.
Variables prec emax : Z.
Hypothesis prec_gt_0 : 0 < prec.

Let emin := emin prec emax.
Let fexp := fexp prec emax.

Lemma fexp_ge_emin (e : Z) : emin <= fexp e.
Proof. unfold fexp, SpecFloat.fexp, emin. lia. Qed.

Lemma shr_fexp_noop (m e : Z) :
  fexp (Zdigits2 m + e) <= e ->
  shr_fexp prec emax m e loc_Exact = (Build_shr_record m false false, e).
Proof.
  intro H. unfold shr_fexp, shr. cbn [shr_record_of_loc].
  fold (fexp (Zdigits2 m + e)).
  destruct (fexp (Zdigits2 m + e) - e) eqn:Hd; try reflexivity. lia.
Qed.

Lemma binary_round_aux_exact (s : bool) (m : positive) (e : Z) :
  fexp (Zpos (digits2_pos m) + e) <= e ->
  binary_round_aux prec emax s (Zpos m) e loc_Exact =
  if e <=? emax - prec then S754_finite s m e else S754_infinity s.
Proof.
  intro H. unfold binary_round_aux.
  rewrite (shr_fexp_noop (Zpos m) e) by exact H.
  cbn [shr_m loc_of_shr_record round_nearest_even].
  rewrite (shr_fexp_noop (Zpos m) e) by exact H.
  reflexivity.
Qed.

(** The library's [binary_round] in closed form. *)
Lemma binary_round_correct (s : bool) (mx : positive) (ex : Z) :
  binary_round prec emax s mx ex =
  SFencode prec emax s (round_mant_exp prec emax (Zpos mx) ex).
Proof.
  unfold binary_round, round_mant_exp, shl_align. cbn [Zdigits2].
  fold (fexp (Zpos (digits2_pos mx) + ex)).
  set (E := fexp (Zpos (digits2_pos mx) + ex)).
  pose proof (eq_refl : E = fexp (Zpos (digits2_pos mx) + ex)) as HEdef.
  clearbody E.
  destruct (E - ex) as [| k | d] eqn:Hd.
  - (* E = ex *)
    assert (Hx : E = ex) by lia. rewrite Hx in *. clear Hx.
    rewrite Z.leb_refl, Z.sub_diag, Z.mul_1_r.
    rewrite binary_round_aux_exact by lia.
    reflexivity.
  - (* E > ex : the mantissa is shifted right and rounded *)
    replace (E <=? ex) with false by (symmetry; apply Z.leb_gt; lia).
    unfold binary_round_aux, shr_fexp at 1, shr. cbn [Zdigits2 shr_record_of_loc].
    fold (fexp (Zpos (digits2_pos mx) + ex)). rewrite <- HEdef, Hd.
    pose proof (shr_round (Zpos mx) k ltac:(lia)) as Hr. cbv zeta in Hr.
    rewrite Hr. clear Hr.
    replace (ex + Zpos k) with E by lia.
    pose proof (round_shift_bounds (Zpos mx) (Zpos k) ltac:(lia) ltac:(lia)) as Hq.
    set (q := round_shift (Zpos mx) (Zpos k)) in *.
    pose proof (digits2_pos_bounds mx) as Hmx.
    pose proof (fexp_ge_emin (Zpos (digits2_pos mx) + ex)) as HE. rewrite <- HEdef in HE.
    assert (Hq0 : 0 <= Zpos mx / 2 ^ Zpos k < 2 ^ prec).
    { split; [apply Z.div_pos; lia |].
      apply Z.div_lt_upper_bound; [lia |].
      rewrite <- Z.pow_add_r by lia.
      eapply Z.lt_le_trans; [apply Hmx |].
      apply Z.pow_le_mono_r; [lia |].
      unfold fexp, SpecFloat.fexp in HEdef. lia. }
    destruct (Z.eqb_spec q (2 ^ prec)) as [Hc | Hc].
    + (* the rounding carries into a new binade *)
      assert (Hdq : Zdigits2 q = prec + 1).
      { destruct q as [| pq | pq] eqn:Hqe; try lia.
        cbn [Zdigits2]. apply digits2_unique with (Zpos pq); try lia.
        replace (prec + 1 - 1) with prec by lia. rewrite Z.pow_add_r by lia. lia. }
      unfold shr_fexp, shr. rewrite Hdq. cbn [shr_record_of_loc].
      fold (fexp (prec + 1 + E)).
      assert (HfE : fexp (prec + 1 + E) - E = 1).
      { unfold fexp, SpecFloat.fexp. fold emin. lia. }
      rewrite HfE. cbn [iter_pos].
      pose proof (shr_1_inv q 0 (Build_shr_record q false false) ltac:(lia) ltac:(lia)) as Hs.
      destruct Hs as [Hs _].
      { split; cbn; [rewrite Z.div_1_r; reflexivity | apply Z.mod_1_r]. }
      rewrite Hs. change (2 ^ (0 + 1)) with 2.
      assert (Hhalf : q / 2 = 2 ^ (prec - 1)).
      { rewrite Hc. replace prec with (prec - 1 + 1) at 1 by lia.
        rewrite Z.pow_add_r by lia. change (2 ^ 1) with 2. apply Z.div_mul. lia. }
      rewrite Hhalf. unfold SFencode. cbn [fst snd]. reflexivity.
    + assert (Hnoop : fexp (Zdigits2 q + E) <= E).
      { destruct q as [| pq | pq] eqn:Hqe; try lia; cbn [Zdigits2].
        - unfold fexp, SpecFloat.fexp. fold emin. lia.
        - pose proof (digits2_pos_bounds pq) as Hpq.
          assert (Zpos (digits2_pos pq) <= prec).
          { destruct (Z.le_gt_cases (Zpos (digits2_pos pq)) prec) as [Hle | Hgt]; [exact Hle | exfalso].
            assert (2 ^ prec <= 2 ^ (Zpos (digits2_pos pq) - 1)) by (apply Z.pow_le_mono_r; lia).
            lia. }
          unfold fexp, SpecFloat.fexp. fold emin. lia. }
      rewrite (shr_fexp_noop q E Hnoop). unfold SFencode. cbn [shr_m fst snd]. reflexivity.
  - (* E < ex : the mantissa is shifted left, exactly *)
    replace (E <=? ex) with true by (symmetry; apply Z.leb_le; lia).
    rewrite binary_round_aux_exact.
    + unfold SFencode. cbn [fst snd].
      replace (ex - E) with (Zpos d) by lia. rewrite <- pos_iter_xO. reflexivity.
    + rewrite digits2_pos_shift.
      replace (Zpos (digits2_pos mx) + Zpos d + E) with (Zpos (digits2_pos mx) + ex) by lia.
      lia.
Qed.
End Rounding.

(* ------------------------------------------------------------------ *)
(** ** Rounding on integers *)

Lemma Zdigits2_bounds (n : Z) :
  0 < n -> 0 < Zdigits2 n /\ 2 ^ (Zdigits2 n - 1) <= n < 2 ^ Zdigits2 n.
Proof.
  destruct n as [| p | p]; try lia. intros _. cbn [Zdigits2].
  split; [lia | apply digits2_pos_bounds].
Qed.

Lemma Zdigits2_unique (n d : Z) :
  0 < d -> 2 ^ (d - 1) <= n < 2 ^ d -> Zdigits2 n = d.
Proof.
  intros Hd Hn.
  assert (0 < n) by (assert (0 < 2 ^ (d - 1)) by (apply Z.pow_pos_nonneg; lia); lia).
  destruct n as [| p | p]; try lia. cbn [Zdigits2].
  now apply digits2_unique with (Zpos p).
Qed.

Lemma Zdigits2_scale (n j : Z) :
  0 < n -> 0 <= j -> Zdigits2 (n * 2 ^ j) = Zdigits2 n + j.
Proof.
  intros Hn Hj. destruct (Zdigits2_bounds n Hn) as [Hd Hb].
  assert (Hp : 0 < 2 ^ j) by (apply Z.pow_pos_nonneg; lia).
  apply Zdigits2_unique; [lia |].
  replace (Zdigits2 n + j - 1) with (Zdigits2 n - 1 + j) by lia.
  rewrite !Z.pow_add_r by lia. nia.
Qed.

Lemma round_shift_scale (n k j : Z) :
  0 <= n -> 0 < k -> 0 <= j ->
  round_shift (n * 2 ^ j) (k + j) = round_shift n k.
Proof.
  intros Hn Hk Hj. unfold round_shift.
  assert (Hpj : 0 < 2 ^ j) by (apply Z.pow_pos_nonneg; lia).
  assert (Hpk : 0 < 2 ^ k) by (apply Z.pow_pos_nonneg; lia).
  rewrite Z.pow_add_r by lia.
  rewrite Z.div_mul_cancel_r by lia.
  rewrite Z.mul_mod_distr_r by lia.
  replace (2 * (n mod 2 ^ k * 2 ^ j)) with (2 * (n mod 2 ^ k) * 2 ^ j) by lia.
  rewrite <- Zmult_compare_compat_r by lia. reflexivity.
Qed.

Lemma round_shift_exact (n k : Z) :
  0 < k -> n mod 2 ^ k = 0 -> round_shift n k * 2 ^ k = n.
Proof.
  intros Hk Hm. unfold round_shift. rewrite Hm.
  assert (Hpk : 0 < 2 ^ k) by (apply Z.pow_pos_nonneg; lia).
  replace (2 * 0 ?= 2 ^ k) with Lt by (symmetry; apply Z.compare_lt_iff; lia).
  pose proof (Z.div_mod n (2 ^ k) ltac:(lia)). lia.
Qed.

Lemma round_shift_error (n k : Z) :
  0 <= n -> 0 < k -> 2 * Z.abs (round_shift n k * 2 ^ k - n) <= 2 ^ k.
Proof.
  intros Hn Hk. unfold round_shift.
  assert (Hpk : 0 < 2 ^ k) by (apply Z.pow_pos_nonneg; lia).
  pose proof (Z.div_mod n (2 ^ k) ltac:(lia)) as Hdm.
  pose proof (Z.mod_pos_bound n (2 ^ k) Hpk) as Hb.
  destruct (Z.compare_spec (2 * (n mod 2 ^ k)) (2 ^ k)); [destruct (Z.even (n / 2 ^ k)) | |]; lia.
Qed.

(* ------------------------------------------------------------------ *)
(** ** Binary32 rounding in units of 2^-149 *)

Lemma pow2_pos (a : Z) : 0 <= a -> 0 < 2 ^ a.
Proof. intro. apply Z.pow_pos_nonneg; lia. Qed.

Lemma pow2_lt_inv (a b : Z) : 0 <= a -> 2 ^ a < 2 ^ b -> a < b.
Proof.
  intros Ha H. destruct (Z.lt_ge_cases a b) as [Hlt | Hge]; [exact Hlt | exfalso].
  destruct (Z.lt_ge_cases b 0) as [Hb | Hb].
  - rewrite (Z.pow_neg_r 2 b Hb) in H. pose proof (pow2_pos a Ha). lia.
  - assert (2 ^ b <= 2 ^ a) by (apply Z.pow_le_mono_r; lia). lia.
Qed.

Lemma fexp32 (e : Z) : fexp 24 128 e = Z.max (e - 24) (-149).
Proof. reflexivity. Qed.

(** A canonical mantissa and exponent below the overflow threshold encode a
    finite binary32 number of the expected value. *)
Lemma SFencode32_spec (s : bool) (m e : Z) :
  0 < m -> fexp 24 128 (Zdigits2 m + e) = e ->
  m * 2 ^ (e + 149) < 2 ^ 277 ->
  finite32 (SFencode 24 128 s (m, e)) = true /\
  ulps (SFencode 24 128 s (m, e)) = cond_Zopp s (m * 2 ^ (e + 149)).
Proof.
  intros Hm Hc Hov. rewrite fexp32 in Hc.
  destruct (Zdigits2_bounds m Hm) as [Hd Hb].
  assert (He : -149 <= e) by lia.
  assert (Hle : e <= 104).
  { destruct (Z.eq_dec e (-149)) as [-> | Hne]; [lia |].
    assert (Hd24 : Zdigits2 m = 24) by lia. rewrite Hd24 in Hb.
    assert (2 ^ (23 + (e + 149)) < 2 ^ 277).
    { rewrite Z.pow_add_r by lia. pose proof (pow2_pos (e + 149) ltac:(lia)).
      change (24 - 1) with 23 in Hb. nia. }
    apply pow2_lt_inv in H; lia. }
  destruct m as [| p | p]; try lia.
  unfold SFencode. cbn [fst snd].
  replace (e <=? 128 - 24) with true by (symmetry; apply Z.leb_le; lia).
  split; [| reflexivity].
  unfold finite32, valid_binary, bounded, canonical_mantissa. cbn [is_finite andb].
  cbn [Zdigits2] in Hc. rewrite fexp32.
  apply andb_true_intro; split; [apply Z.eqb_eq; exact Hc | apply Z.leb_le; lia].
Qed.

(** Rounding [n * 2^e] to binary32 is [round32u] on its value in units of
    2^-149, short of overflow. *)
Lemma binary_round32_spec (s : bool) (n : positive) (e : Z) :
  -149 <= e ->
  round32u (Zpos n * 2 ^ (e + 149)) < 2 ^ 277 ->
  finite32 (binary_round 24 128 s n e) = true /\
  ulps (binary_round 24 128 s n e) = cond_Zopp s (round32u (Zpos n * 2 ^ (e + 149))).
Proof.
  intros He Hov. rewrite binary_round_correct by lia.
  unfold round_mant_exp. rewrite fexp32. cbn [Zdigits2].
  pose proof (digits2_pos_bounds n) as Hn.
  set (dn := Zpos (digits2_pos n)) in *.
  assert (Hdn : 0 < dn) by (unfold dn; lia).
  assert (Hdu : Zdigits2 (Zpos n * 2 ^ (e + 149)) = dn + (e + 149))
    by (rewrite Zdigits2_scale by lia; reflexivity).
  unfold round32u in *. rewrite Hdu in *.
  set (E := Z.max (dn + e - 24) (-149)) in *.
  destruct (Z.leb_spec E e) as [HEe | HEe].
  - (* the exact value is representable *)
    assert (Hval : Zpos n * 2 ^ (e - E) * 2 ^ (E + 149) = Zpos n * 2 ^ (e + 149)).
    { rewrite <- Z.mul_assoc, <- Z.pow_add_r by lia. do 2 f_equal. lia. }
    assert (Hru : (if dn + (e + 149) - 24 <=? 0 then Zpos n * 2 ^ (e + 149)
                   else round_shift (Zpos n * 2 ^ (e + 149)) (dn + (e + 149) - 24)
                        * 2 ^ (dn + (e + 149) - 24)) = Zpos n * 2 ^ (e + 149)).
    { destruct (Z.leb_spec (dn + (e + 149) - 24) 0) as [Hk | Hk]; [reflexivity |].
      apply round_shift_exact; [lia |].
      replace (dn + (e + 149) - 24) with (E + 149) by lia.
      rewrite <- Hval. apply Z_mod_mult. }
    rewrite Hru in *.
    pose proof (pow2_pos (e - E) ltac:(lia)) as Hp.
    destruct (SFencode32_spec s (Zpos n * 2 ^ (e - E)) E) as [Hf Hu].
    + lia.
    + rewrite Zdigits2_scale by lia. cbn [Zdigits2]. fold dn. rewrite fexp32.
      replace (dn + (e - E) + E - 24) with (dn + e - 24) by lia. reflexivity.
    + rewrite Hval. exact Hov.
    + split; [exact Hf | rewrite Hu, Hval; reflexivity].
  - (* the mantissa is rounded to 24 bits *)
    assert (HE : E = dn + e - 24) by lia.
    assert (Hk : dn + (e + 149) - 24 = E - e + (e + 149)) by lia.
    replace (dn + (e + 149) - 24 <=? 0) with false in Hov |- *
      by (symmetry; apply Z.leb_gt; lia).
    rewrite Hk in *. rewrite round_shift_scale in * by lia.
    pose proof (round_shift_bounds (Zpos n) (E - e) ltac:(lia) ltac:(lia)) as Hq.
    set (q := round_shift (Zpos n) (E - e)) in *.
    assert (Hq0 : 2 ^ 23 <= Zpos n / 2 ^ (E - e) < 2 ^ 24).
    { pose proof (pow2_pos (E - e) ltac:(lia)) as Hp. split.
      - apply Z.div_le_lower_bound; [lia |].
        rewrite Z.mul_comm, <- Z.pow_add_r by lia.
        replace (23 + (E - e)) with (dn - 1) by lia. lia.
      - apply Z.div_lt_upper_bound; [lia |].
        rewrite <- Z.pow_add_r by lia.
        replace (E - e + 24) with dn by lia. lia. }
    assert (Hsplit : 2 ^ (E - e + (e + 149)) = 2 ^ (E + 149)) by (f_equal; lia).
    rewrite Hsplit in *.
    destruct (Z.eqb_spec q (2 ^ 24)) as [Hc | Hc].
    + assert (Hval : 2 ^ (24 - 1) * 2 ^ (E + 1 + 149) = q * 2 ^ (E + 149)).
      { rewrite Hc, <- !Z.pow_add_r by lia. f_equal. lia. }
      destruct (SFencode32_spec s (2 ^ (24 - 1)) (E + 1)) as [Hf Hu].
      * reflexivity.
      * rewrite fexp32. change (Zdigits2 (2 ^ (24 - 1))) with 24. lia.
      * rewrite Hval. exact Hov.
      * split; [exact Hf | rewrite Hu, Hval; reflexivity].
    + destruct (SFencode32_spec s q E) as [Hf Hu].
      * change (2 ^ 23) with 8388608 in Hq0. lia.
      * rewrite fexp32.
        rewrite (Zdigits2_unique q 24); [lia | lia |].
        change (24 - 1) with 23. lia.
      * exact Hov.
      * split; [exact Hf | exact Hu].
Qed.

(* ------------------------------------------------------------------ *)
(** ** [fmodf] and [fadd] against the modulus *)

Lemma color_m_eq : color_m = S754_finite false 8421505 (-23).
Proof. reflexivity. Qed.

Lemma shl_align_spec (mx : positive) (ex ez : Z) :
  ez <= ex -> Zpos (fst (shl_align mx ex ez)) = Zpos mx * 2 ^ (ex - ez).
Proof.
  intro H. unfold shl_align.
  destruct (ez - ex) as [| d | d] eqn:Hd; cbn [fst]; try lia.
  - replace (ex - ez) with 0 by lia. lia.
  - rewrite pos_iter_xO. do 2 f_equal. lia.
Qed.

Lemma round32u_exact (r j : Z) :
  0 < r -> Zdigits2 r <= 24 -> 0 <= j -> round32u (r * 2 ^ j) = r * 2 ^ j.
Proof.
  intros Hr Hd Hj. unfold round32u. rewrite Zdigits2_scale by lia.
  destruct (Z.leb_spec (Zdigits2 r + j - 24) 0) as [Hk | Hk]; [reflexivity |].
  apply round_shift_exact; [lia |].
  replace j with (j - (Zdigits2 r + j - 24) + (Zdigits2 r + j - 24)) at 1 by lia.
  destruct (Zdigits2_bounds r Hr).
  rewrite Z.pow_add_r, Z.mul_assoc by lia. apply Z_mod_mult.
Qed.

Lemma round32u_error (u : Z) :
  0 < u -> 2 * Z.abs (round32u u - u) <= 2 ^ (Zdigits2 u - 24).
Proof.
  intro Hu. unfold round32u.
  destruct (Z.leb_spec (Zdigits2 u - 24) 0) as [Hk | Hk].
  - rewrite Z.sub_diag. cbn [Z.abs]. apply Z.pow_nonneg. lia.
  - apply round_shift_error; lia.
Qed.

Lemma finite32_inv (s : bool) (m : positive) (e : Z) :
  finite32 (S754_finite s m e) = true ->
  -149 <= e <= 104 /\ Zpos (digits2_pos m) <= 24 /\
  (-149 < e -> Zpos (digits2_pos m) = 24).
Proof.
  unfold finite32, valid_binary, bounded, canonical_mantissa. cbn [is_finite andb].
  rewrite fexp32. intro H. apply andb_prop in H. destruct H as [Hc Hb].
  apply Z.eqb_eq in Hc. apply Z.leb_le in Hb. lia.
Qed.

Lemma Zdigits2_le (n d : Z) : 0 < n -> 0 <= d -> n < 2 ^ d -> Zdigits2 n <= d.
Proof.
  intros Hn Hd Hlt. destruct (Zdigits2_bounds n Hn) as [H0 Hb].
  destruct (Z.le_gt_cases (Zdigits2 n) d) as [Hle | Hgt]; [exact Hle | exfalso].
  assert (2 ^ d <= 2 ^ (Zdigits2 n - 1)) by (apply Z.pow_le_mono_r; lia). lia.
Qed.

Lemma binary_normalize32_spec (z e : Z) (s : bool) :
  -149 <= e -> round32u (Z.abs z * 2 ^ (e + 149)) < 2 ^ 277 ->
  finite32 (binary_normalize 24 128 z e s) = true /\
  ulps (binary_normalize 24 128 z e s) =
    Z.sgn z * round32u (Z.abs z * 2 ^ (e + 149)).
Proof.
  intros He Hov. destruct z as [| p | p]; cbn [binary_normalize Z.abs Z.sgn] in *.
  - split; reflexivity.
  - destruct (binary_round32_spec false p e He Hov) as [Hf Hu].
    split; [exact Hf |]. rewrite Hu. cbn [cond_Zopp]. lia.
  - destruct (binary_round32_spec true p e He Hov) as [Hf Hu].
    split; [exact Hf |]. rewrite Hu. cbn [cond_Zopp]. lia.
Qed.

(** [std::fmod(x, m)] is exact: in units of 2^-149 it is the truncated
    remainder [Z.rem] by [Um]. *)
Lemma fmodf_color_m (x : spec_float) :
  finite32 x = true ->
  finite32 (fmodf x color_m) = true /\
  ulps (fmodf x color_m) = Z.rem (ulps x) Um.
Proof.
  intro Hx. rewrite color_m_eq. destruct x as [s | s | | s m e]; try discriminate.
  - split; [reflexivity |]. cbn [ulps]. symmetry. apply Z.rem_0_l. unfold Um. lia.
  - apply finite32_inv in Hx. destruct Hx as (He & Hd & _).
    unfold fmodf, SFfmod. set (ez := Z.min e (-23)).
    rewrite !shl_align_spec by lia.
    set (A := Zpos m * 2 ^ (e - ez)). set (B := 8421505 * 2 ^ (-23 - ez)).
    assert (HpA : 0 < 2 ^ (e - ez)) by (apply pow2_pos; lia).
    assert (HpB : 0 < 2 ^ (-23 - ez)) by (apply pow2_pos; lia).
    assert (Hpz : 0 < 2 ^ (ez + 149)) by (apply pow2_pos; lia).
    assert (HA : 0 < A) by (unfold A; lia). assert (HB : 0 < B) by (unfold B; lia).
    pose proof (Z.rem_bound_pos A B ltac:(lia) HB) as HR.
    assert (HRA : Z.rem A B <= A).
    { rewrite Z.rem_mod_nonneg by lia. apply Z.mod_le; lia. }
    set (R := Z.rem A B) in *.
    assert (Hm24 : Zpos m < 2 ^ 24).
    { pose proof (digits2_pos_bounds m) as Hb.
      assert (2 ^ Zpos (digits2_pos m) <= 2 ^ 24) by (apply Z.pow_le_mono_r; lia). lia. }
    assert (HR24 : R < 2 ^ 24).
    { destruct (Z.le_gt_cases e (-23)) as [Hle | Hgt].
      - unfold A in HRA. replace (e - ez) with 0 in HRA by lia.
        change (2 ^ 0) with 1 in HRA. lia.
      - unfold B in HR. replace (-23 - ez) with 0 in HR by lia.
        change (2 ^ 0) with 1 in HR. change (2 ^ 24) with 16777216. lia. }
    assert (HuA : Zpos m * 2 ^ (e + 149) = A * 2 ^ (ez + 149)).
    { unfold A. rewrite <- Z.mul_assoc, <- Z.pow_add_r by lia. do 2 f_equal. lia. }
    assert (HuB : Um = B * 2 ^ (ez + 149)).
    { unfold B, Um. rewrite <- Z.mul_assoc, <- Z.pow_add_r by lia. do 2 f_equal. lia. }
    assert (Hrem : Z.rem (ulps (S754_finite s m e)) Um = cond_Zopp s (R * 2 ^ (ez + 149))).
    { cbn [ulps]. rewrite HuA, HuB. destruct s; cbn [cond_Zopp].
      - rewrite Z.rem_opp_l by lia. rewrite Z.mul_rem_distr_r by lia. reflexivity.
      - rewrite Z.mul_rem_distr_r by lia. reflexivity. }
    rewrite Hrem.
    destruct (Z.eq_dec R 0) as [HR0 | HR0].
    + rewrite HR0. destruct s; cbn; split; reflexivity.
    + assert (Hex : round32u (R * 2 ^ (ez + 149)) = R * 2 ^ (ez + 149)).
      { apply round32u_exact; [lia | apply Zdigits2_le; lia | lia]. }
      destruct (binary_normalize32_spec (cond_Zopp s R) ez s) as [Hf Hu].
      * lia.
      * replace (Z.abs (cond_Zopp s R)) with R by (destruct s; cbn [cond_Zopp]; lia).
        rewrite Hex.
        assert (2 ^ (ez + 149) <= 2 ^ 126) by (apply Z.pow_le_mono_r; lia).
        change (2 ^ 277) with (2 ^ 24 * 2 ^ 126 * 2 ^ 127).
        change (2 ^ 127) with 170141183460469231731687303715884105728.
        change (2 ^ 24) with 16777216 in *. nia.
      * split; [exact Hf |]. rewrite Hu.
        replace (Z.abs (cond_Zopp s R)) with R by (destruct s; cbn [cond_Zopp]; lia).
        rewrite Hex. destruct s; cbn [cond_Zopp].
        -- replace (Z.sgn (- R)) with (-1) by lia. lia.
        -- replace (Z.sgn R) with 1 by lia. lia.
Qed.

(* ------------------------------------------------------------------ *)
(** ** Every result of [binary_round] is well formed *)

Section Validity.
Variables prec emax : Z.
Hypothesis prec_gt_0 : 0 < prec.

Lemma round_mant_exp_canonical (n e : Z) :
  0 < n ->
  0 <= fst (round_mant_exp prec emax n e) /\
  (0 < fst (round_mant_exp prec emax n e) ->
   fexp prec emax (Zdigits2 (fst (round_mant_exp prec emax n e))
                   + snd (round_mant_exp prec emax n e))
   = snd (round_mant_exp prec emax n e)).
Proof.
  intro Hn. unfold round_mant_exp.
  destruct (Zdigits2_bounds n Hn) as [Hdn Hb].
  set (dn := Zdigits2 n) in *.
  set (E := fexp prec emax (dn + e)).
  assert (HE : E = Z.max (dn + e - prec) (emin prec emax)) by reflexivity.
  clearbody E.
  destruct (Z.leb_spec E e) as [HEe | HEe]; cbn [fst snd].
  - pose proof (pow2_pos (e - E) ltac:(lia)) as Hp.
    split; [nia |]. intros _.
    rewrite Zdigits2_scale by lia. fold dn.
    replace (dn + (e - E) + E) with (dn + e) by lia.
    unfold fexp. lia.
  - pose proof (round_shift_bounds n (E - e) ltac:(lia) ltac:(lia)) as Hq.
    set (q := round_shift n (E - e)) in *.
    pose proof (pow2_pos (E - e) ltac:(lia)) as Hp.
    assert (Hq0 : 0 <= n / 2 ^ (E - e) < 2 ^ prec).
    { split; [apply Z.div_pos; lia |].
      apply Z.div_lt_upper_bound; [lia |].
      rewrite <- Z.pow_add_r by lia.
      eapply Z.lt_le_trans; [apply Hb |].
      apply Z.pow_le_mono_r; lia. }
    destruct (Z.eqb_spec q (2 ^ prec)) as [Hc | Hc]; cbn [fst snd].
    + pose proof (pow2_pos (prec - 1) ltac:(lia)) as Hp1.
      split; [lia |]. intros _.
      rewrite (Zdigits2_unique (2 ^ (prec - 1)) prec).
      * unfold fexp. lia.
      * lia.
      * split; [lia |]. apply Z.pow_lt_mono_r; lia.
    + split; [lia |]. intro Hqpos.
      assert (Hdq : Zdigits2 q <= prec) by (apply Zdigits2_le; lia).
      destruct (Zdigits2_bounds q Hqpos) as [Hdq0 Hqb].
      destruct (Z.eq_dec E (emin prec emax)) as [Hmin | Hmin].
      * unfold fexp. lia.
      * assert (HEn : E = dn + e - prec) by lia.
        assert (Hlow : 2 ^ (prec - 1) <= n / 2 ^ (E - e)).
        { apply Z.div_le_lower_bound; [lia |].
          rewrite Z.mul_comm, <- Z.pow_add_r by lia.
          replace (prec - 1 + (E - e)) with (dn - 1) by lia. lia. }
        assert (Hdq' : prec <= Zdigits2 q).
        { destruct (Z.le_gt_cases prec (Zdigits2 q)) as [Hle | Hgt]; [exact Hle | exfalso].
          assert (2 ^ Zdigits2 q <= 2 ^ (prec - 1)) by (apply Z.pow_le_mono_r; lia).
          lia. }
        unfold fexp. lia.
Qed.

(** Whatever is rounded, the result is a well-formed number of the format. *)
Lemma binary_round_valid (s : bool) (mx : positive) (ex : Z) :
  valid_binary prec emax (binary_round prec emax s mx ex) = true.
Proof.
  rewrite binary_round_correct by exact prec_gt_0.
  destruct (round_mant_exp_canonical (Zpos mx) ex ltac:(lia)) as [H0 Hc].
  unfold SFencode.
  destruct (round_mant_exp prec emax (Zpos mx) ex) as [m e]. cbn [fst snd] in *.
  destruct m as [| p | p]; try reflexivity; try lia.
  destruct (Z.leb_spec e (emax - prec)) as [Hle | Hgt]; [| reflexivity].
  cbn [valid_binary]. unfold bounded, canonical_mantissa.
  apply andb_true_intro. split.
  - apply Z.eqb_eq. apply (Hc ltac:(lia)).
  - apply Z.leb_le. exact Hle.
Qed.
End Validity.

(* ------------------------------------------------------------------ *)
(** ** [color_modulo] in units of 2^-149 *)

Lemma Um_bounds : 2 ^ 149 < Um < 2 ^ 150.
Proof. unfold Um. split; reflexivity. Qed.

Lemma round32u_small_bound (u : Z) :
  0 < u -> u < 2 ^ 151 -> 2 * Z.abs (round32u u - u) <= 2 ^ 127.
Proof.
  intros Hu Hlt. pose proof (round32u_error u Hu) as He.
  assert (Zdigits2 u <= 151) by (apply Zdigits2_le; lia).
  assert (2 ^ (Zdigits2 u - 24) <= 2 ^ 127).
  { destruct (Z.lt_ge_cases (Zdigits2 u - 24) 0) as [Hn | Hn].
    - rewrite Z.pow_neg_r by lia. apply Z.pow_nonneg. lia.
    - apply Z.pow_le_mono_r; lia. }
  lia.
Qed.

Lemma finite32_small_exp (s : bool) (m : positive) (e : Z) :
  finite32 (S754_finite s m e) = true ->
  Zpos m * 2 ^ (e + 149) < 2 ^ 150 -> e <= -23.
Proof.
  intros Hx Hlt. apply finite32_inv in Hx. destruct Hx as (He & Hd & Hn).
  destruct (Z.eq_dec e (-149)) as [-> | Hne]; [lia |].
  pose proof (digits2_pos_bounds m) as Hb. rewrite Hn in Hb by lia.
  assert (H : 2 ^ (23 + (e + 149)) < 2 ^ 150).
  { rewrite Z.pow_add_r by lia. pose proof (pow2_pos (e + 149) ltac:(lia)).
    change (24 - 1) with 23 in Hb. nia. }
  apply pow2_lt_inv in H; lia.
Qed.

(** [x + m] for [|x| < m] is the exact sum, rounded. *)
Lemma fadd_color_m (x : spec_float) :
  finite32 x = true -> Z.abs (ulps x) < Um ->
  finite32 (fadd x color_m) = true /\
  ulps (fadd x color_m) = round32u (ulps x + Um).
Proof.
  intros Hx Hlt. rewrite color_m_eq. pose proof Um_bounds as HUm.
  destruct x as [s | s | | s m e]; try discriminate.
  - cbn [fadd SFadd ulps]. split; [reflexivity |].
    symmetry. apply (round32u_exact 8421505 126); [lia | | lia].
    apply Zdigits2_le; [lia | lia | reflexivity].
  - assert (He23 : e <= -23).
    { apply (finite32_small_exp s m e Hx). cbn [ulps] in Hlt.
      destruct s; cbn [cond_Zopp] in Hlt; lia. }
    pose proof (finite32_inv s m e Hx) as (He & Hd & _).
    unfold fadd, SFadd. replace (Z.min e (-23)) with e by lia.
    rewrite !shl_align_spec by lia. rewrite Z.sub_diag, Z.mul_1_r.
    cbn [cond_Zopp].
    set (B := Zpos 8421505 * 2 ^ (-23 - e)).
    assert (Hpe : 0 < 2 ^ (e + 149)) by (apply pow2_pos; lia).
    assert (HuB : Um = B * 2 ^ (e + 149)).
    { unfold B, Um. rewrite <- Z.mul_assoc, <- Z.pow_add_r by lia. do 2 f_equal. lia. }
    assert (Hu : ulps (S754_finite s m e) + Um
                 = (cond_Zopp s (Zpos m) + B) * 2 ^ (e + 149)).
    { cbn [ulps]. rewrite HuB. destruct s; cbn [cond_Zopp]; lia. }
    assert (Hpos : 0 < cond_Zopp s (Zpos m) + B).
    { cbn [ulps] in Hlt. rewrite HuB in Hlt. destruct s; cbn [cond_Zopp] in *; nia. }
    assert (Hsum : 0 < ulps (S754_finite s m e) + Um < 2 ^ 151).
    { change (2 ^ 151) with (2 * 2 ^ 150). lia. }
    pose proof (round32u_small_bound _ (proj1 Hsum) (proj2 Hsum)) as Herr.
    destruct (binary_normalize32_spec (cond_Zopp s (Zpos m) + B) e false) as [Hf Hv].
    + lia.
    + rewrite Z.abs_eq by lia. rewrite <- Hu.
      change (2 ^ 277) with (2 ^ 151 + 2 ^ 127 + (2 ^ 277 - 2 ^ 151 - 2 ^ 127)).
      assert (0 < 2 ^ 277 - 2 ^ 151 - 2 ^ 127) by reflexivity. lia.
    + split; [exact Hf |]. rewrite Hv, Z.abs_eq, <- Hu by lia.
      replace (Z.sgn (cond_Zopp s (Zpos m) + B)) with 1 by lia. lia.
Qed.

Lemma round32u_nonneg (u : Z) : 0 <= u -> 0 <= round32u u.
Proof.
  intro Hu. unfold round32u.
  destruct (Z.leb_spec (Zdigits2 u - 24) 0) as [Hk | Hk]; [exact Hu |].
  pose proof (round_shift_bounds u (Zdigits2 u - 24) Hu Hk) as Hq.
  assert (0 <= u / 2 ^ (Zdigits2 u - 24)) by (apply Z.div_pos; [lia | apply pow2_pos; lia]).
  apply Z.mul_nonneg_nonneg; [lia | apply Z.pow_nonneg; lia].
Qed.

(** The value computed by [color_modulo], in units of 2^-149. *)
Lemma color_modulo_ulps (x : spec_float) :
  finite32 x = true ->
  finite32 (color_modulo x) = true /\
  ulps (color_modulo x) = round32u (Z.rem (ulps x) Um + Um) mod Um.
Proof.
  intro Hx. pose proof Um_bounds as HUm. unfold color_modulo.
  destruct (fmodf_color_m x Hx) as [Hf1 Hu1].
  assert (Hr1 : Z.abs (Z.rem (ulps x) Um) < Um).
  { pose proof (Z.rem_bound_abs (ulps x) Um ltac:(lia)). lia. }
  destruct (fadd_color_m (fmodf x color_m) Hf1) as [Hf2 Hu2]; [rewrite Hu1; exact Hr1 |].
  destruct (fmodf_color_m _ Hf2) as [Hf3 Hu3].
  split; [exact Hf3 |]. rewrite Hu3, Hu2, Hu1.
  apply Z.rem_mod_nonneg; [apply round32u_nonneg; lia | lia].
Qed.

(** From 1.0 upwards the floats are multiples of 2^-23. *)
Lemma finite32_grid (x : spec_float) :
  finite32 x = true -> 2 ^ 149 <= Z.abs (ulps x) ->
  exists q, ulps x = q * 2 ^ 126.
Proof.
  intros Hx Hge. destruct x as [s | s | | s m e]; try discriminate;
    try (cbn [ulps Z.abs] in Hge; exfalso; lia).
  pose proof (finite32_inv s m e Hx) as (He & Hd & Hn).
  assert (Habs : Z.abs (ulps (S754_finite s m e)) = Zpos m * 2 ^ (e + 149)).
  { cbn [ulps]. pose proof (pow2_pos (e + 149) ltac:(lia)).
    destruct s; cbn [cond_Zopp]; lia. }
  rewrite Habs in Hge.
  assert (He23 : -23 <= e).
  { pose proof (digits2_pos_bounds m) as Hb.
    assert (Hm : Zpos m < 2 ^ 24).
    { assert (2 ^ Zpos (digits2_pos m) <= 2 ^ 24) by (apply Z.pow_le_mono_r; lia). lia. }
    assert (H : 2 ^ 149 < 2 ^ (24 + (e + 149))).
    { rewrite Z.pow_add_r by lia. pose proof (pow2_pos (e + 149) ltac:(lia)). nia. }
    apply pow2_lt_inv in H; lia. }
  exists (cond_Zopp s (Zpos m * 2 ^ (e + 23))). cbn [ulps].
  replace (e + 149) with (e + 23 + 126) by lia. rewrite Z.pow_add_r by lia.
  destruct s; cbn [cond_Zopp]; lia.
Qed.

(* ------------------------------------------------------------------ *)
(** ** Rational values *)

Lemma two149_eq : Zpos two149 = 2 ^ 149.
Proof. reflexivity. Qed.

(** The value of a finite [float] is its number of units over 2^149. *)
Lemma SF2Q_ulps (x : spec_float) :
  finite32 x = true -> (SF2Q x == ulps x # two149)%Q.
Proof.
  intro Hx. destruct x as [s | s | | s m e]; try discriminate; try reflexivity.
  apply finite32_inv in Hx. destruct Hx as (He & _).
  cbn [SF2Q ulps].
  assert (Hu : cond_Zopp s (Zpos m * 2 ^ (e + 149)) = cond_Zopp s (Zpos m) * 2 ^ (e + 149))
    by (destruct s; cbn [cond_Zopp]; lia).
  rewrite Hu. set (A := cond_Zopp s (Zpos m)).
  rewrite (Qmake_Qdiv (A * 2 ^ (e + 149)) two149), inject_Z_mult, two149_eq.
  rewrite !Zpower_Qpower by lia.
  rewrite Qpower_plus by discriminate.
  change (inject_Z 2) with 2%Q.
  field.
Qed.

Lemma Qemod_ulps (a b : Z) (d : positive) :
  0 < b -> (Qemod (a # d) (b # d) == (a mod b) # d)%Q.
Proof.
  intro Hb. unfold Qemod.
  assert (Hfl : Qfloor ((a # d) / (b # d)) = a / b).
  { destruct b as [| pb | pb]; try lia.
    unfold Qdiv, Qinv, Qmult, Qfloor. cbn [Qnum Qden].
    rewrite Pos2Z.inj_mul. rewrite (Z.mul_comm (Zpos d) (Zpos pb)).
    apply Z.div_mul_cancel_r; lia. }
  rewrite Hfl. pose proof (Z.div_mod a b ltac:(lia)) as Hdm.
  unfold Qeq, Qminus, Qplus, Qopp, Qmult, inject_Z. cbn [Qnum Qden].
  rewrite !Pos2Z.inj_mul. nia.
Qed.

Lemma quantize_spec_ulps (a b : Z) (d : positive) :
  0 < b -> (quantize_spec (b # d) (a # d) == (a mod b) # d)%Q.
Proof.
  intro Hb. unfold quantize_spec.
  assert (Hin : (Qemod (a # d) (b # d) + (b # d) == (a mod b + b) # d)%Q).
  { rewrite Qemod_ulps by exact Hb.
    unfold Qeq, Qplus. cbn [Qnum Qden]. rewrite !Pos2Z.inj_mul. nia. }
  assert (Hcomp : forall x y, (x == y)%Q -> (Qemod x (b # d) == Qemod y (b # d))%Q).
  { intros x y Hxy. unfold Qemod, Qminus.
    apply Qplus_comp; [exact Hxy |]. apply Qopp_comp.
    apply Qmult_comp; [reflexivity |].
    rewrite (Qfloor_comp (x / (b # d)) (y / (b # d))); [reflexivity |].
    unfold Qdiv. apply Qmult_comp; [exact Hxy | reflexivity]. }
  rewrite (Hcomp _ _ Hin), Qemod_ulps by exact Hb.
  replace ((a mod b + b) mod b) with (a mod b); [reflexivity |].
  rewrite <- (Z.mul_1_l b) at 3. rewrite Z.mod_add by lia.
  symmetry. apply Z.mod_mod. lia.
Qed.

(* ------------------------------------------------------------------ *)
(** ** Rounding next to the modulus *)

Lemma round32u_binade (v d : Z) :
  24 < d -> 2 ^ (d - 1) <= v < 2 ^ d ->
  round32u v = round_shift v (d - 24) * 2 ^ (d - 24).
Proof.
  intros Hd Hv. unfold round32u. rewrite (Zdigits2_unique v d) by lia.
  replace (d - 24 <=? 0) with false by (symmetry; apply Z.leb_gt; lia). reflexivity.
Qed.

Lemma round_shift_cases (n k : Z) :
  0 <= n -> 0 < k ->
  let q := n / 2 ^ k in let r := n mod 2 ^ k in
  n = q * 2 ^ k + r /\ 0 <= r < 2 ^ k /\
  ((round_shift n k = q /\ 2 * r <= 2 ^ k /\ (2 * r = 2 ^ k -> Z.even q = true)) \/
   (round_shift n k = q + 1 /\ 2 ^ k <= 2 * r /\ (2 * r = 2 ^ k -> Z.even q = false))).
Proof.
  intros Hn Hk q r.
  assert (Hpk : 0 < 2 ^ k) by (apply pow2_pos; lia).
  pose proof (Z.div_mod n (2 ^ k) ltac:(lia)) as Hdm.
  pose proof (Z.mod_pos_bound n (2 ^ k) Hpk) as Hb.
  split; [subst q r; lia |]. split; [exact Hb |].
  unfold round_shift. fold q r.
  destruct (Z.compare_spec (2 * r) (2 ^ k)) as [He | Hl | Hg].
  - destruct (Z.even q) eqn:Hev; [left | right]; repeat split; auto; lia.
  - left. repeat split; lia.
  - right. repeat split; lia.
Qed.

Ltac pow_consts :=
  change (2 ^ 151) with (4 * 2 ^ 149) in *;
  change (2 ^ 150) with (2 * 2 ^ 149) in *;
  change (2 ^ 149) with (8388608 * 2 ^ 126) in *;
  change (2 ^ 127) with (2 * 2 ^ 126) in *;
  change Um with (8421505 * 2 ^ 126) in *;
  let P := fresh "P" in
  assert (P : 0 < 2 ^ 126) by reflexivity;
  generalize dependent (2 ^ 126); intros.

(** Rounding below twice the modulus: the error is at most 2^-23, rounding
    does not cross [m] or [2 m], and - the mantissa of [m] being odd - a value
    at most [2 m - 2^-23] is not rounded up to [2 m]. *)
Lemma round32u_near_Um (v : Z) :
  0 < v < 2 * Um ->
  2 * Z.abs (round32u v - v) <= 2 ^ 127 /\
  (v < Um -> round32u v <= Um) /\
  (Um <= v -> Um <= round32u v <= 2 * Um) /\
  (Um <= v <= 2 * Um - 2 ^ 126 -> round32u v < 2 * Um).
Proof.
  intro Hv. pose proof Um_bounds as HUm.
  assert (Hv151 : v < 2 ^ 151) by (change (2 ^ 151) with (2 * 2 ^ 150); lia).
  pose proof (round32u_small_bound v ltac:(lia) Hv151) as Herr.
  split; [exact Herr |].
  destruct (Z.lt_ge_cases v (2 ^ 149)) as [Hlow | Hge149].
  { (* below 1.0 nothing reaches the modulus *)
    pow_consts. split; [| split]; intros; lia. }
  destruct (Z.lt_ge_cases v (2 ^ 150)) as [Hmid | Hge150].
  - (* 1.0 <= v < 2.0 : spacing 2^-23 *)
    rewrite (round32u_binade v 150) in * by lia.
    change (150 - 24) with 126 in *.
    destruct (round_shift_cases v 126 ltac:(lia) ltac:(lia)) as (Hdm & Hr & Hc).
    cbv zeta in Hc. set (q := v / 2 ^ 126) in *. set (r := v mod 2 ^ 126) in *.
    clearbody q r. clear Herr.
    assert (Hqlo : v < Um -> q <= 8421504) by (intro; pow_consts; nia).
    assert (Hqhi : Um <= v -> 8421505 <= q) by (intro; pow_consts; nia).
    assert (Hqtop : q <= 16777215) by (pow_consts; nia).
    destruct Hc as [(Hq & Hc & _) | (Hq & Hc & _)]; rewrite Hq; clear Hq;
      (split; [| split]); intros; pow_consts; nia.
  - (* 2.0 <= v < 2 m : spacing 2^-22, and the modulus 8421505 is odd *)
    rewrite (round32u_binade v 151) in * by lia.
    change (151 - 24) with 127 in *.
    destruct (round_shift_cases v 127 ltac:(lia) ltac:(lia)) as (Hdm & Hr & Hc).
    cbv zeta in Hc. set (q := v / 2 ^ 127) in *. set (r := v mod 2 ^ 127) in *.
    clearbody q r. clear Herr.
    destruct Hc as [(Hq & Hc & Hev) | (Hq & Hc & Hev)]; rewrite Hq; clear Hq.
    + pow_consts. split; [| split]; intros; nia.
    + assert (Hq' : q <= 8421504) by (pow_consts; nia).
      assert (Hodd : 2 * r = 2 ^ 127 -> q <> 8421504).
      { intros Ht Heq. specialize (Hev Ht). rewrite Heq in Hev. discriminate. }
      pow_consts. split; [| split]; intros; nia.
Qed.

(* ------------------------------------------------------------------ *)
(** ** The claims about [color_modulo] *)

(** In exact arithmetic the formula of [color_modulo], with the truncated
    remainder of [std::fmod], is the Euclidean modulus. *)
Lemma rem_plus_mod (u m : Z) : 0 < m -> (Z.rem u m + m) mod m = u mod m.
Proof.
  intro Hm. pose proof (Z.quot_rem u m ltac:(lia)) as Hq.
  replace (Z.rem u m + m) with (u + (1 - u ÷ m) * m) by lia.
  apply Z.mod_add. lia.
Qed.

Lemma finite32_below_Um (c : spec_float) :
  finite32 c = true -> 0 <= ulps c < Um -> ulps c <= Um - 2 ^ 126.
Proof.
  intros Hc Hr. destruct (Z.lt_ge_cases (ulps c) (2 ^ 149)) as [Hlt | Hge].
  - pow_consts. lia.
  - destruct (finite32_grid c Hc ltac:(lia)) as [q Hq]. rewrite Hq in *.
    pow_consts.
    assert (q < 8421505) by (apply (Z.mul_lt_mono_pos_r z); lia).
    assert (q * z <= 8421504 * z) by (apply Z.mul_le_mono_nonneg_r; lia).
    lia.
Qed.

(** On a [float] already in [0, m) the function moves by at most 2^-23. *)
Lemma color_modulo_fixpoint_ulps (c : spec_float) :
  finite32 c = true -> 0 <= ulps c < Um ->
  Z.abs (ulps (color_modulo c) - ulps c) <= 2 ^ 126.
Proof.
  intros Hc Hr. pose proof (finite32_below_Um c Hc Hr) as Hg.
  destruct (color_modulo_ulps c Hc) as [_ Hu]. rewrite Hu.
  rewrite Z.rem_small by lia.
  destruct (round32u_near_Um (ulps c + Um) ltac:(lia)) as (Herr & _ & Hge & Hlt).
  specialize (Hge ltac:(lia)). specialize (Hlt ltac:(lia)).
  set (s := round32u (ulps c + Um)) in *.
  assert (Hmod : s mod Um = s - Um).
  { symmetry. apply Z.mod_unique with 1; lia. }
  rewrite Hmod. change (2 ^ 127) with (2 * 2 ^ 126) in Herr. lia.
Qed.

(** [color_modulo] against the Euclidean modulus by [Um], in units of 2^-149. *)
Lemma color_modulo_ulps_spec (x : spec_float) :
  finite32 x = true ->
  Z.abs (ulps (color_modulo x) - ulps x mod Um) <= 2 ^ 126 \/
  (ulps (color_modulo x) = 0 /\ Um - ulps x mod Um <= 2 ^ 126).
Proof.
  intro Hx. pose proof Um_bounds as HUm.
  destruct (color_modulo_ulps x Hx) as [_ Hu]. rewrite Hu.
  rewrite <- (rem_plus_mod (ulps x) Um) by lia.
  pose proof (Z.rem_bound_abs (ulps x) Um ltac:(lia)) as Hr.
  set (v := Z.rem (ulps x) Um + Um) in *.
  assert (Hv : 0 < v < 2 * Um) by lia.
  destruct (round32u_near_Um v Hv) as (Herr & Hlo & Hhi & _).
  pose proof (round32u_nonneg v ltac:(lia)) as Hs0.
  set (s := round32u v) in *. change (2 ^ 127) with (2 * 2 ^ 126) in Herr.
  destruct (Z.lt_ge_cases v Um) as [Hlt | Hge].
  - specialize (Hlo Hlt). rewrite (Z.mod_small v) by lia.
    destruct (Z.eq_dec s Um) as [-> | Hne].
    + right. rewrite Z.mod_same by lia. lia.
    + left. rewrite Z.mod_small by lia. lia.
  - specialize (Hhi Hge).
    replace (v mod Um) with (v - Um) by (apply Z.mod_unique with 1; lia).
    destruct (Z.eq_dec s (2 * Um)) as [-> | Hne].
    + right. rewrite Z.mod_mul by lia. lia.
    + left. replace (s mod Um) with (s - Um) by (apply Z.mod_unique with 1; lia). lia.
Qed.

(** C3 - quantisation range: for every finite [float] [x], negative and
    fractional ones included, [color_modulo x] is a finite [float], neither
    an infinity nor NaN, and [0 <= color_modulo x < 256/255].  (The result is
    in fact below the binary32 constant [m], and the largest [float] below
    [m] is still below 256/255.) *)
Theorem color_modulo_range (x : float) :
  finite32 x = true ->
  finite32 (color_modulo x) = true /\
  (0 <= SF2Q (color_modulo x) /\ SF2Q (color_modulo x) < 256 # 255)%Q.
Proof.
  intro Hx. destruct (color_modulo_ulps x Hx) as [Hf Hu].
  pose proof Um_bounds as HUm.
  assert (Hr : 0 <= ulps (color_modulo x) < Um).
  { rewrite Hu. apply Z.mod_pos_bound. lia. }
  pose proof (finite32_below_Um _ Hf Hr) as Hg.
  split; [exact Hf |].
  rewrite (SF2Q_ulps _ Hf). unfold Qle, Qlt. cbn [Qnum Qden]. rewrite two149_eq.
  split; [lia |]. pow_consts. lia.
Qed.

Lemma Qabs_ulps (a b : Z) :
  Z.abs (a - b) <= 2 ^ 126 ->
  (Qabs ((a # two149) - (b # two149)) <= 1 # 8388608)%Q.
Proof.
  intro H. apply Qabs_Qle_condition.
  unfold Qle, Qminus, Qplus, Qopp. cbn [Qnum Qden].
  rewrite !Pos2Z.inj_mul, two149_eq.
  pow_consts. nia.
Qed.

(** C2 - quantisation idempotence within floating-point tolerance: for every
    finite [float] [x], [color_modulo x] and [color_modulo (color_modulo x)]
    are finite [float]s, neither infinities nor NaN, and they differ by at
    most 2^-23, the spacing of the floats at 1.0 ([FLT_EPSILON]). *)
Theorem color_modulo_idempotent (x : float) :
  finite32 x = true ->
  finite32 (color_modulo x) = true /\
  finite32 (color_modulo (color_modulo x)) = true /\
  (Qabs (SF2Q (color_modulo (color_modulo x)) - SF2Q (color_modulo x))
   <= 1 # 8388608)%Q.
Proof.
  intro Hx. destruct (color_modulo_ulps x Hx) as [Hf Hu].
  pose proof Um_bounds as HUm.
  assert (Hr : 0 <= ulps (color_modulo x) < Um).
  { rewrite Hu. apply Z.mod_pos_bound. lia. }
  destruct (color_modulo_ulps _ Hf) as [Hf2 _].
  split; [exact Hf |]. split; [exact Hf2 |].
  rewrite (SF2Q_ulps _ Hf), (SF2Q_ulps _ Hf2).
  apply Qabs_ulps. apply color_modulo_fixpoint_ulps; assumption.
Qed.

#[local] Instance Qemod_comp : Proper (Qeq ==> Qeq ==> Qeq) Qemod.
Proof.
  intros x y Hxy m n Hmn. unfold Qemod, Qminus.
  apply Qplus_comp; [exact Hxy |]. apply Qopp_comp.
  apply Qmult_comp; [exact Hmn |].
  rewrite (Qfloor_comp (x / m) (y / n)); [reflexivity |].
  unfold Qdiv. apply Qmult_comp; [exact Hxy | apply Qinv_comp; exact Hmn].
Qed.

#[local] Instance quantize_spec_comp : Proper (Qeq ==> Qeq ==> Qeq) quantize_spec.
Proof.
  intros m n Hmn x y Hxy. unfold quantize_spec.
  apply Qemod_comp; [| exact Hmn].
  apply Qplus_comp; [| exact Hmn]. apply Qemod_comp; assumption.
Qed.

(** C1, as amended - [color_modulo] against the reference definition.  With
    the reference [((x mod m) + m) mod m] (Euclidean modulus) taken at the
    binary32 modulus [m = 256.0f / 255.0f], every finite [float] [x] gives a
    finite [float] within 2^-23 of the reference value; the one exception is a
    reference value within 2^-23 below [m], which may come out as 0, the
    same point after one more wrap. *)
Theorem color_modulo_refines_quantize (x : float) :
  finite32 x = true ->
  finite32 (color_modulo x) = true /\
  (Qabs (SF2Q (color_modulo x) - quantize_spec (SF2Q color_m) (SF2Q x)) <= 1 # 8388608 \/
   (SF2Q (color_modulo x) == 0 /\
    SF2Q color_m - quantize_spec (SF2Q color_m) (SF2Q x) <= 1 # 8388608))%Q.
Proof.
  intro Hx. destruct (color_modulo_ulps x Hx) as [Hf _].
  split; [exact Hf |].
  pose proof Um_bounds as HUm.
  assert (Hm : (SF2Q color_m == Um # two149)%Q) by (apply (SF2Q_ulps color_m); reflexivity).
  assert (Hq : (quantize_spec (SF2Q color_m) (SF2Q x) == (ulps x mod Um) # two149)%Q).
  { rewrite <- (quantize_spec_ulps (ulps x) Um two149) by lia.
    apply quantize_spec_comp; [exact Hm | apply SF2Q_ulps; exact Hx]. }
  rewrite Hq, Hm, (SF2Q_ulps _ Hf).
  destruct (color_modulo_ulps_spec x Hx) as [Hc | [Hz Hc]].
  - left. apply Qabs_ulps. exact Hc.
  - right. split.
    + rewrite Hz. reflexivity.
    + pose proof (Z.mod_pos_bound (ulps x) Um ltac:(lia)) as Hb.
      unfold Qle, Qminus, Qplus, Qopp. cbn [Qnum Qden].
      rewrite !Pos2Z.inj_mul, two149_eq. pow_consts. nia.
Qed.

Lemma float_of_double_valid (x : spec_float) :
  valid_binary 24 128 (float_of_double x) = true.
Proof.
  destruct x as [s | s | | s m e]; try reflexivity.
  cbn [float_of_double]. apply binary_round_valid. lia.
Qed.

Lemma color_modulo_valid (x : spec_float) :
  valid_binary 24 128 x = true -> valid_binary 24 128 (color_modulo x) = true.
Proof.
  intro Hv. destruct (is_finite x) eqn:Hfin.
  - assert (Hx : finite32 x = true) by (unfold finite32; rewrite Hfin, Hv; reflexivity).
    destruct (color_modulo_ulps x Hx) as [Hf _].
    unfold finite32 in Hf. apply andb_prop in Hf. apply Hf.
  - destruct x as [s | s | | s m e]; try discriminate; reflexivity.
Qed.
(** [std::fmod] on a few inputs: 5.5 mod 2, -5.5 mod 2 (the sign follows the
    first argument), an exact multiple (a signed zero), and the special
    values. *)
Example fmodf_samples :
  fmodf (S754_finite false 11 (-1)) (float_of_Z 2) = S754_finite false 12582912 (-23) /\
  fmodf (S754_finite true 11 (-1)) (float_of_Z 2) = S754_finite true 12582912 (-23) /\
  fmodf (float_of_Z (-4)) (float_of_Z 2) = S754_zero true /\
  fmodf (float_of_Z 1) (S754_infinity false) = float_of_Z 1 /\
  fmodf (S754_infinity false) (float_of_Z 1) = S754_nan /\
  fmodf (float_of_Z 1) (S754_zero false) = S754_nan.
Proof. repeat split. Qed.

(** The modulus in use is the [float] nearest to 256/255; it is slightly
    larger, and its predecessor is smaller. *)
Example color_m_value :
  (SF2Q color_m == 8421505 # 8388608)%Q /\
  (256 # 255 < SF2Q color_m)%Q /\
  (SF2Q color_m - (1 # 8388608) < 256 # 255)%Q.
Proof. repeat split. Qed.

(** [color_modulo] on 2, -1, -0.75, 1000 and the largest [float]. *)
Example color_modulo_samples :
  color_modulo (float_of_Z 2) = S754_finite false 16711422 (-24) /\
  color_modulo (float_of_Z (-1)) = S754_finite false 8421632 (-31) /\
  color_modulo minus_three_quarters = S754_finite false 8520196 (-25) /\
  color_modulo (float_of_Z 1000) = S754_finite false 12624320 (-27) /\
  color_modulo (S754_finite false 16777215 104) = S754_finite false 10440810 (-24).
Proof. repeat split. Qed.

(** Infinities and NaN are not quantised: the result is NaN. *)
Example color_modulo_not_finite :
  color_modulo (S754_infinity false) = S754_nan /\
  color_modulo (S754_infinity true) = S754_nan /\
  color_modulo S754_nan = S754_nan.
Proof. repeat split. Qed.

Lemma color_modulo_range_witness :
  finite32 minus_three_quarters = true /\
  finite32 (color_modulo minus_three_quarters) = true /\
  (0 <= SF2Q (color_modulo minus_three_quarters) /\
   SF2Q (color_modulo minus_three_quarters) < 256 # 255)%Q.
Proof.
  split; [reflexivity | apply (color_modulo_range minus_three_quarters); reflexivity].
Defined.

Lemma color_modulo_idempotent_witness :
  finite32 minus_three_quarters = true /\
  finite32 (color_modulo minus_three_quarters) = true /\
  finite32 (color_modulo (color_modulo minus_three_quarters)) = true /\
  (Qabs (SF2Q (color_modulo (color_modulo minus_three_quarters))
         - SF2Q (color_modulo minus_three_quarters)) <= 1 # 8388608)%Q.
Proof.
  split; [reflexivity | apply (color_modulo_idempotent minus_three_quarters); reflexivity].
Defined.

Lemma color_modulo_refines_quantize_witness :
  finite32 minus_three_quarters = true /\
  finite32 (color_modulo minus_three_quarters) = true /\
  (Qabs (SF2Q (color_modulo minus_three_quarters)
         - quantize_spec (SF2Q color_m) (SF2Q minus_three_quarters)) <= 1 # 8388608 \/
   (SF2Q (color_modulo minus_three_quarters) == 0 /\
    SF2Q color_m - quantize_spec (SF2Q color_m) (SF2Q minus_three_quarters)
    <= 1 # 8388608))%Q.
Proof.
  split; [reflexivity | apply (color_modulo_refines_quantize minus_three_quarters); reflexivity].
Defined.

(** Exact idempotence does fail: [color_modulo (1 - m) = 1.0f], and
    [color_modulo 1.0f] is 2^-23 below. *)
Example color_modulo_not_exactly_idempotent :
  color_modulo (S754_finite true 32897 (-23)) = float_of_Z 1 /\
  color_modulo (float_of_Z 1) = S754_finite false 16777214 (-24).
Proof. split; reflexivity. Qed.

(** C1 as stated fails.  At [1.0f] the code returns 1 - 2^-23 where the
    reference, at 256/255 or at the binary32 modulus, gives 1; at [1000.0f]
    the result is further than 2^-23 from the reference at 256/255, because
    the modulus in use is the [float] nearest to 256/255; and at the
    smallest negative [float] the code returns 0 where the reference is just
    below the modulus. *)
Lemma color_modulo_not_exact_quantize :
  (finite32 (float_of_Z 1) = true /\
   ~ (SF2Q (color_modulo (float_of_Z 1)) == quantize (SF2Q (float_of_Z 1)))%Q /\
   ~ (SF2Q (color_modulo (float_of_Z 1))
      == quantize_spec (SF2Q color_m) (SF2Q (float_of_Z 1)))%Q) /\
  (finite32 (float_of_Z 1000) = true /\
   ~ (Qabs (SF2Q (color_modulo (float_of_Z 1000)) - quantize (SF2Q (float_of_Z 1000)))
      <= 1 # 8388608)%Q) /\
  (finite32 (S754_finite true 1 (-149)) = true /\
   color_modulo (S754_finite true 1 (-149)) = S754_zero false /\
   ~ (Qabs (SF2Q (color_modulo (S754_finite true 1 (-149)))
            - quantize_spec (SF2Q color_m) (SF2Q (S754_finite true 1 (-149))))
      <= 1 # 8388608)%Q).
Proof.
  repeat split; try reflexivity; vm_compute; intro H; try discriminate H;
    apply H; reflexivity.
Qed.

(** C4, as amended - the worked value: [color_modulo 1.0f] is the [float]
    1 - 2^-23 (bit pattern 0x3F7FFFFE); so it is within 2^-23 of 1.0 and
    nowhere near 0.00392.

    By hand, in units of 2^-23: [m] is 8421505 and 1.0 is 8388608.
    [fmod(1, m)] is 1, as 1 < m.  The sum 8388608 + 8421505 = 16810113 is
    odd and above 2^24, so it is not a [float]: its neighbours 16810112 and
    16810114 are equally near, and the tie goes to the one with the even
    24-bit mantissa, 16810112 = 2 * 8405056.  The last [fmod] subtracts [m]
    once: 16810112 - 8421505 = 8388607. *)
Theorem color_modulo_one :
  color_modulo (float_of_Z 1) = S754_finite false 16777214 (-24) /\
  (SF2Q (color_modulo (float_of_Z 1)) == 1 - (1 # 8388608))%Q /\
  (Qabs (SF2Q (color_modulo (float_of_Z 1)) - 1) <= 1 # 8388608)%Q /\
  (99 # 100 < SF2Q (color_modulo (float_of_Z 1)))%Q.
Proof. repeat split; vm_compute; intro H; discriminate H. Qed.

(** C4 as stated fails: the result does not compare equal to [1.0f]. *)
Lemma color_modulo_one_not_one :
  SFeqb (color_modulo (float_of_Z 1)) (float_of_Z 1) = false /\
  color_modulo (float_of_Z 1) <> float_of_Z 1 /\
  ~ (SF2Q (color_modulo (float_of_Z 1)) == SF2Q (float_of_Z 1))%Q.
Proof.
  split; [reflexivity |]. split; vm_compute; intro H; discriminate H.
Qed.

(* ------------------------------------------------------------------ *)
(** ** Narrowing a [double] to [float] *)

Lemma pow2_le_mono (a b : Z) : 0 <= a <= b -> 2 ^ a <= 2 ^ b.
Proof. intro H. apply Z.pow_le_mono_r; lia. Qed.

Lemma pow2_split (a b : Z) : 0 <= a -> 0 <= b -> 2 ^ (a + b) = 2 ^ a * 2 ^ b.
Proof. intros. apply Z.pow_add_r; lia. Qed.

Lemma binary_round32_finite_iff (s : bool) (n : positive) (e : Z) :
  is_finite (binary_round 24 128 s n e) = negb (beyond_float_range (Zpos n) e).
Proof.
  rewrite binary_round_correct by lia.
  unfold round_mant_exp, SFencode. rewrite fexp32. cbn [Zdigits2].
  pose proof (digits2_pos_bounds n) as Hn.
  set (dn := Zpos (digits2_pos n)) in *.
  assert (Hdn : 0 < dn) by (unfold dn; lia).
  set (E := Z.max (dn + e - 24) (-149)).
  destruct (Z.lt_trichotomy (dn + e) 128) as [Hlt | [Heq | Hgt]].
  - (* below 2^127: the exponent stays within range *)
    assert (HE : E <= 103) by lia.
    assert (Hno : beyond_float_range (Zpos n) e = false).
    { unfold beyond_float_range. destruct (Z.leb_spec e 103) as [He | He]; apply Z.leb_gt.
      - assert (2 ^ dn <= 2 ^ (24 + (103 - e))) by (apply pow2_le_mono; lia).
        rewrite pow2_split in H by lia. change (2 ^ 24) with 16777216 in H.
        change (2 ^ 25 - 1) with 33554431.
        pose proof (pow2_pos (103 - e) ltac:(lia)). nia.
      - assert (2 ^ dn * 2 ^ (e - 103) <= 2 ^ 24).
        { rewrite <- pow2_split by lia. apply pow2_le_mono. lia. }
        pose proof (pow2_pos (e - 103) ltac:(lia)).
        change (2 ^ 24) with 16777216 in H. change (2 ^ 25 - 1) with 33554431. nia. }
    rewrite Hno. cbn [negb].
    destruct (Z.leb_spec E e) as [HEe | HEe]; cbn [fst snd].
    + pose proof (pow2_pos (e - E) ltac:(lia)).
      destruct (Zpos n * 2 ^ (e - E)) eqn:Hm; try lia.
      replace (E <=? 128 - 24) with true by (symmetry; apply Z.leb_le; lia). reflexivity.
    + destruct (Z.eqb_spec (round_shift (Zpos n) (E - e)) (2 ^ 24)) as [Hc | Hc]; cbn [fst snd].
      * change (2 ^ (24 - 1)) with 8388608.
        replace (E + 1 <=? 128 - 24) with true by (symmetry; apply Z.leb_le; lia). reflexivity.
      * pose proof (round_shift_bounds (Zpos n) (E - e) ltac:(lia) ltac:(lia)) as Hq.
        assert (0 <= Zpos n / 2 ^ (E - e)) by (apply Z.div_pos; [lia | apply pow2_pos; lia]).
        destruct (round_shift (Zpos n) (E - e)); try reflexivity; try lia.
        replace (E <=? 128 - 24) with true by (symmetry; apply Z.leb_le; lia). reflexivity.
  - (* the top binade: overflow exactly when the mantissa is rounded up to 2^24 *)
    assert (HE : E = 104) by lia.
    destruct (Z.leb_spec E e) as [HEe | HEe]; cbn [fst snd].
    + assert (Hno : beyond_float_range (Zpos n) e = false).
      { unfold beyond_float_range.
        replace (e <=? 103) with false by (symmetry; apply Z.leb_gt; lia).
        apply Z.leb_gt.
        assert (Hp : 2 ^ dn * 2 ^ (e - 103) = 2 ^ 25).
        { rewrite <- pow2_split by lia. f_equal. lia. }
        assert (He : 2 ^ (e - 103) = 2 * 2 ^ (e - 104)).
        { replace (e - 103) with (1 + (e - 104)) by lia. rewrite pow2_split by lia. reflexivity. }
        pose proof (pow2_pos (e - 104) ltac:(lia)).
        change (2 ^ 25) with 33554432 in *. nia. }
      rewrite Hno. cbn [negb].
      pose proof (pow2_pos (e - E) ltac:(lia)).
      destruct (Zpos n * 2 ^ (e - E)) eqn:Hm; try lia.
      replace (E <=? 128 - 24) with true by (symmetry; apply Z.leb_le; lia). reflexivity.
    + rewrite HE in *. set (k := 104 - e) in *.
      destruct (round_shift_cases (Zpos n) k ltac:(lia) ltac:(lia)) as (Hdm & Hr & Hc).
      cbv zeta in Hc.
      assert (Hq0 : 2 ^ 23 <= Zpos n / 2 ^ k < 2 ^ 24).
      { pose proof (pow2_pos k ltac:(lia)) as Hp. split.
        - apply Z.div_le_lower_bound; [lia |].
          rewrite Z.mul_comm, <- pow2_split by lia.
          replace (23 + k) with (dn - 1) by lia. lia.
        - apply Z.div_lt_upper_bound; [lia |].
          rewrite <- pow2_split by lia. replace (k + 24) with dn by lia. lia. }
      assert (Hk : 2 ^ k = 2 * 2 ^ (103 - e)).
      { replace k with (1 + (103 - e)) by lia. rewrite pow2_split by lia. reflexivity. }
      pose proof (pow2_pos (103 - e) ltac:(lia)) as Hp.
      unfold beyond_float_range.
      replace (e <=? 103) with true by (symmetry; apply Z.leb_le; lia).
      set (q0 := Zpos n / 2 ^ k) in *. set (r := Zpos n mod 2 ^ k) in *.
      set (q := round_shift (Zpos n) k) in *. clearbody q0 r q.
      change (2 ^ 23) with 8388608 in *. change (2 ^ 24) with 16777216 in *.
      change (2 ^ 25 - 1) with 33554431.
      destruct (Z.eqb_spec q 16777216) as [Hcar | Hcar]; cbn [fst snd].
      * change (2 ^ (24 - 1)) with 8388608. cbn [is_finite]. symmetry.
        apply negb_false_iff, Z.leb_le.
        destruct Hc as [(Hq & _) | (Hq & Hh & _)]; [lia |].
        assert (q0 = 16777215) by lia. subst q0. nia.
      * assert (Hfin : is_finite
                   (match q with
                    | 0 => S754_zero s
                    | Zpos m => if 104 <=? 128 - 24 then S754_finite s m 104 else S754_infinity s
                    | Zneg _ => S754_nan
                    end) = true).
        { destruct Hc as [(Hq & _) | (Hq & _)]; destruct q; try lia; reflexivity. }
        rewrite Hfin. symmetry. apply negb_true_iff, Z.leb_gt.
        destruct Hc as [(Hq & Hh & Hev) | (Hq & Hh & Hev)].
        -- destruct (Z.eq_dec (2 * r) (2 ^ k)) as [Ht | Ht].
           ++ specialize (Hev Ht). subst q.
              assert (q0 <> 16777215) by (intro Hx; rewrite Hx in Hev; discriminate Hev).
              nia.
           ++ nia.
        -- nia.
  - (* 2^128 and above: always overflow *)
    assert (HE : E = dn + e - 24) by lia.
    assert (Hyes : beyond_float_range (Zpos n) e = true).
    { unfold beyond_float_range. destruct (Z.leb_spec e 103) as [He | He]; apply Z.leb_le.
      - assert (2 ^ (25 + (103 - e)) <= 2 ^ (dn - 1)) by (apply pow2_le_mono; lia).
        rewrite pow2_split in H by lia. change (2 ^ 25) with 33554432 in H.
        change (2 ^ 25 - 1) with 33554431.
        pose proof (pow2_pos (103 - e) ltac:(lia)). nia.
      - assert (2 ^ 25 <= 2 ^ (dn - 1) * 2 ^ (e - 103)).
        { rewrite <- pow2_split by lia. apply pow2_le_mono. lia. }
        pose proof (pow2_pos (e - 103) ltac:(lia)).
        change (2 ^ 25) with 33554432 in H. change (2 ^ 25 - 1) with 33554431. nia. }
    rewrite Hyes. cbn [negb].
    destruct (Z.leb_spec E e) as [HEe | HEe]; cbn [fst snd].
    + pose proof (pow2_pos (e - E) ltac:(lia)).
      destruct (Zpos n * 2 ^ (e - E)) eqn:Hm; try lia.
      replace (E <=? 128 - 24) with false by (symmetry; apply Z.leb_gt; lia). reflexivity.
    + destruct (Z.eqb_spec (round_shift (Zpos n) (E - e)) (2 ^ 24)) as [Hc | Hc]; cbn [fst snd].
      * change (2 ^ (24 - 1)) with 8388608.
        replace (E + 1 <=? 128 - 24) with false by (symmetry; apply Z.leb_gt; lia). reflexivity.
      * pose proof (round_shift_bounds (Zpos n) (E - e) ltac:(lia) ltac:(lia)) as Hq.
        assert (2 ^ 23 <= Zpos n / 2 ^ (E - e)).
        { pose proof (pow2_pos (E - e) ltac:(lia)) as Hp.
          apply Z.div_le_lower_bound; [lia |].
          rewrite Z.mul_comm, <- pow2_split by lia.
          replace (23 + (E - e)) with (dn - 1) by lia. lia. }
        change (2 ^ 23) with 8388608 in *.
        destruct (round_shift (Zpos n) (E - e)); try lia.
        replace (E <=? 128 - 24) with false by (symmetry; apply Z.leb_gt; lia). reflexivity.
Qed.

Lemma Qpow2_pos (z : Z) : (0 < 2 ^ z)%Q.
Proof. apply Qpower_0_lt. reflexivity. Qed.

Lemma Qpow2_nonneg_exp (z : Z) : 0 <= z -> (2 ^ z == inject_Z (2 ^ z))%Q.
Proof. intro Hz. rewrite Zpower_Qpower by exact Hz. reflexivity. Qed.

Lemma Qscale_le (a b z : Z) :
  (inject_Z a * 2 ^ z <= inject_Z b * 2 ^ z)%Q <-> a <= b.
Proof.
  rewrite Qmult_le_r by apply Qpow2_pos. rewrite <- Zle_Qle. reflexivity.
Qed.

Lemma beyond_float_range_Q (m : positive) (e : Z) :
  beyond_float_range (Zpos m) e = true <->
  (inject_Z ((2 ^ 25 - 1) * 2 ^ 103) <= inject_Z (Zpos m) * 2 ^ e)%Q.
Proof.
  unfold beyond_float_range. destruct (Z.leb_spec e 103) as [He | He].
  - rewrite Z.leb_le, <- (Qscale_le _ _ e).
    assert (Heq : (inject_Z ((2 ^ 25 - 1) * 2 ^ (103 - e)) * 2 ^ e
                   == inject_Z ((2 ^ 25 - 1) * 2 ^ 103))%Q).
    { rewrite !inject_Z_mult, <- Qmult_assoc.
      rewrite (Zpower_Qpower 2 (103 - e)), (Zpower_Qpower 2 103) by lia.
      rewrite <- Qpower_plus by discriminate.
      replace (103 - e + e) with 103 by lia. reflexivity. }
    rewrite Heq. reflexivity.
  - rewrite Z.leb_le, <- (Qscale_le _ _ 103).
    assert (Heq : (inject_Z (Zpos m * 2 ^ (e - 103)) * 2 ^ 103
                   == inject_Z (Zpos m) * 2 ^ e)%Q).
    { rewrite inject_Z_mult, <- Qmult_assoc.
      rewrite (Zpower_Qpower 2 (e - 103)) by lia.
      rewrite <- Qpower_plus by discriminate.
      replace (e - 103 + 103) with e by lia. reflexivity. }
    rewrite Heq.
    assert (Hl : (inject_Z (2 ^ 25 - 1) * 2 ^ 103 == inject_Z ((2 ^ 25 - 1) * 2 ^ 103))%Q).
    { rewrite inject_Z_mult, (Zpower_Qpower 2 103) by lia. reflexivity. }
    rewrite Hl. reflexivity.
Qed.

Lemma Qabs_SF2Q_finite (s : bool) (m : positive) (e : Z) :
  (Qabs (SF2Q (S754_finite s m e)) == inject_Z (Zpos m) * 2 ^ e)%Q.
Proof.
  cbn [SF2Q]. rewrite Qabs_Qmult.
  rewrite (Qabs_pos (2 ^ e)) by (apply Qlt_le_weak, Qpow2_pos).
  apply Qmult_comp; [| reflexivity].
  destruct s; reflexivity.
Qed.

Lemma Qval_shift (a e c : Z) :
  c <= e -> (inject_Z a * 2 ^ e == inject_Z (a * 2 ^ (e - c)) * 2 ^ c)%Q.
Proof.
  intro H. rewrite inject_Z_mult, <- Qmult_assoc, (Zpower_Qpower 2 (e - c)) by lia.
  rewrite <- Qpower_plus by discriminate.
  replace (e - c + c) with e by lia. reflexivity.
Qed.

Lemma cond_Zopp_mul (s : bool) (a b : Z) : cond_Zopp s (a * b) = cond_Zopp s a * b.
Proof. destruct s; cbn [cond_Zopp]; lia. Qed.

Lemma SF2Q_scaled (c : Z) (s : bool) (m : positive) (e : Z) :
  c <= e ->
  (SF2Q (S754_finite s m e) == inject_Z (scaled c (S754_finite s m e)) * 2 ^ c)%Q.
Proof.
  intro H. cbn [SF2Q scaled]. rewrite cond_Zopp_mul. apply Qval_shift. exact H.
Qed.

Lemma Qabs_scaled_diff (a b c : Z) :
  (Qabs (inject_Z a * 2 ^ c - inject_Z b * 2 ^ c) == inject_Z (Z.abs (a - b)) * 2 ^ c)%Q.
Proof.
  assert (H : (inject_Z a * 2 ^ c - inject_Z b * 2 ^ c == inject_Z (a - b) * 2 ^ c)%Q).
  { unfold Z.sub. rewrite inject_Z_plus, inject_Z_opp. ring. }
  rewrite H, Qabs_Qmult.
  rewrite (Qabs_pos (2 ^ c)) by (apply Qlt_le_weak, Qpow2_pos).
  apply Qmult_comp; [| reflexivity].
  unfold Qabs, inject_Z. reflexivity.
Qed.

Lemma round_shift_nearest (n k j : Z) :
  0 <= n -> 0 < k ->
  Z.abs (round_shift n k * 2 ^ k - n) <= Z.abs (j * 2 ^ k - n).
Proof.
  intros Hn Hk. pose proof (round_shift_error n k Hn Hk) as He.
  pose proof (pow2_pos k ltac:(lia)) as Hp.
  set (q := round_shift n k) in *. set (P := 2 ^ k) in *.
  destruct (Z.lt_trichotomy j q) as [Hlt | [-> | Hgt]]; [| lia |].
  - assert (j * P <= q * P - P) by nia. lia.
  - assert (q * P + P <= j * P) by nia. lia.
Qed.

(** Every finite [float] is as far from [n * 2^e] as the rounded mantissa
    is; all in units of [2^c]. *)
Lemma round_shift_nearest_float (n e c E : Z) (y : float) :
  0 < n -> e < E -> c <= e -> c <= -149 ->
  E = Z.max (Zdigits2 n + e - 24) (-149) ->
  finite32 y = true ->
  Z.abs (round_shift n (E - e) * 2 ^ (E - c) - n * 2 ^ (e - c))
  <= Z.abs (scaled c y - n * 2 ^ (e - c)).
Proof.
  intros Hn HeE Hce Hc HE Hy.
  pose proof (pow2_pos (e - c) ltac:(lia)) as Hg.
  pose proof (pow2_pos (E - e) ltac:(lia)) as HK.
  assert (HEc : 2 ^ (E - c) = 2 ^ (E - e) * 2 ^ (e - c)).
  { rewrite <- Z.pow_add_r by lia. f_equal. lia. }
  assert (Hmult : forall j, Z.abs (round_shift n (E - e) * 2 ^ (E - c) - n * 2 ^ (e - c))
                            <= Z.abs (j * 2 ^ (E - c) - n * 2 ^ (e - c))).
  { intro j. pose proof (round_shift_nearest n (E - e) j ltac:(lia) ltac:(lia)) as H.
    rewrite HEc.
    replace (round_shift n (E - e) * (2 ^ (E - e) * 2 ^ (e - c)) - n * 2 ^ (e - c))
      with ((round_shift n (E - e) * 2 ^ (E - e) - n) * 2 ^ (e - c)) by ring.
    replace (j * (2 ^ (E - e) * 2 ^ (e - c)) - n * 2 ^ (e - c))
      with ((j * 2 ^ (E - e) - n) * 2 ^ (e - c)) by ring.
    rewrite !Z.abs_mul, (Z.abs_eq (2 ^ (e - c))) by lia.
    apply Z.mul_le_mono_nonneg_r; lia. }
  destruct y as [sy | sy | | sy my ey]; try discriminate Hy.
  - cbn [scaled]. specialize (Hmult 0). rewrite Z.mul_0_l in Hmult. exact Hmult.
  - apply finite32_inv in Hy. destruct Hy as (Hey & Hdy & _).
    pose proof (digits2_pos_bounds my) as Hmy.
    assert (Hmy24 : Zpos my < 2 ^ 24).
    { assert (2 ^ Zpos (digits2_pos my) <= 2 ^ 24) by (apply Z.pow_le_mono_r; lia). lia. }
    cbn [scaled].
    destruct (Z.le_gt_cases E ey) as [Hge | Hlt].
    + (* a multiple of the rounding unit *)
      specialize (Hmult (cond_Zopp sy (Zpos my * 2 ^ (ey - E)))).
      replace (cond_Zopp sy (Zpos my * 2 ^ (ey - E)) * 2 ^ (E - c))
        with (cond_Zopp sy (Zpos my * 2 ^ (ey - c))) in Hmult; [exact Hmult |].
      rewrite <- cond_Zopp_mul. f_equal.
      rewrite <- Z.mul_assoc, <- Z.pow_add_r by lia. do 2 f_equal. lia.
    + (* below the binade of [n * 2^e] *)
      assert (HE' : E = Zdigits2 n + e - 24) by lia.
      destruct (Zdigits2_bounds n Hn) as [Hd Hb].
      specialize (Hmult (2 ^ 23)).
      assert (HB : 2 ^ 23 * 2 ^ (E - c) <= n * 2 ^ (e - c)).
      { replace (2 ^ 23 * 2 ^ (E - c)) with (2 ^ (Zdigits2 n - 1) * 2 ^ (e - c)).
        - apply Z.mul_le_mono_nonneg_r; lia.
        - rewrite <- !Z.pow_add_r by lia. f_equal. lia. }
      assert (HY : Zpos my * 2 ^ (ey - c) < 2 ^ 23 * 2 ^ (E - c)).
      { assert (H1 : 2 ^ (ey - c) <= 2 ^ (E - 1 - c)) by (apply Z.pow_le_mono_r; lia).
        assert (H2 : 2 ^ 23 * 2 ^ (E - c) = 2 ^ 24 * 2 ^ (E - 1 - c)).
        { rewrite <- !Z.pow_add_r by lia. f_equal. lia. }
        rewrite H2. pose proof (pow2_pos (ey - c) ltac:(lia)).
        pose proof (pow2_pos (E - 1 - c) ltac:(lia)).
        change (2 ^ 24) with 16777216 in *. nia. }
      pose proof (pow2_pos (ey - c) ltac:(lia)) as Hpy.
      assert (Hyabs : Z.abs (cond_Zopp sy (Zpos my * 2 ^ (ey - c))) < 2 ^ 23 * 2 ^ (E - c)).
      { destruct sy; cbn [cond_Zopp]; lia. }
      lia.
Qed.

(** The value of a finite [binary_round] result, in units of [2^c]. *)
Lemma binary_round32_scaled (s : bool) (n : positive) (e c : Z) :
  c <= e -> c <= -149 ->
  is_finite (binary_round 24 128 s n e) = true ->
  let E := Z.max (Zpos (digits2_pos n) + e - 24) (-149) in
  (SF2Q (binary_round 24 128 s n e)
   == inject_Z (cond_Zopp s (if E <=? e then Zpos n * 2 ^ (e - c)
                             else round_shift (Zpos n) (E - e) * 2 ^ (E - c))) * 2 ^ c)%Q.
Proof.
  intros Hce Hc. rewrite binary_round_correct by lia.
  unfold round_mant_exp. rewrite fexp32. cbn [Zdigits2].
  set (E := Z.max (Zpos (digits2_pos n) + e - 24) (-149)).
  intros Hfin. cbv zeta.
  destruct (Z.leb_spec E e) as [HEe | HEe].
  - pose proof (pow2_pos (e - E) ltac:(lia)) as Hp.
    unfold SFencode in *. cbn [fst snd] in *.
    destruct (Zpos n * 2 ^ (e - E)) as [| p | p] eqn:Hm; try lia.
    destruct (E <=? 128 - 24); [| discriminate Hfin].
    rewrite (SF2Q_scaled c) by lia. cbn [scaled]. rewrite <- Hm.
    rewrite <- Z.mul_assoc, <- Z.pow_add_r by lia.
    replace (e - E + (E - c)) with (e - c) by lia. reflexivity.
  - pose proof (round_shift_bounds (Zpos n) (E - e) ltac:(lia) ltac:(lia)) as Hq.
    assert (H0 : 0 <= Zpos n / 2 ^ (E - e)) by (apply Z.div_pos; [lia | apply pow2_pos; lia]).
    destruct (Z.eqb_spec (round_shift (Zpos n) (E - e)) (2 ^ 24)) as [Hcarry | Hcarry].
    + rewrite Hcarry. unfold SFencode in *. cbn [fst snd] in *.
      change (2 ^ (24 - 1)) with (Zpos 8388608) in *. cbv iota in *.
      destruct (E + 1 <=? 128 - 24); [| discriminate Hfin].
      rewrite (SF2Q_scaled c) by lia. cbn [scaled].
      replace (E + 1 - c) with (1 + (E - c)) by lia.
      rewrite Z.pow_add_r by lia. change (2 ^ 24) with 16777216. change (2 ^ 1) with 2.
      replace (8388608 * (2 * 2 ^ (E - c))) with (16777216 * 2 ^ (E - c)) by lia.
      reflexivity.
    + unfold SFencode in *. cbn [fst snd] in *.
      destruct (round_shift (Zpos n) (E - e)) as [| q | q]; try lia.
      * cbn [SF2Q]. rewrite Z.mul_0_l. destruct s; cbn [cond_Zopp Z.opp]; symmetry; apply Qmult_0_l.
      * destruct (E <=? 128 - 24); [| discriminate Hfin].
        rewrite (SF2Q_scaled c) by lia. reflexivity.
Qed.

(** [static_cast<float>] returns a [float] nearest to its argument: no finite
    [float] is nearer. *)
Lemma binary_round32_nearest (s : bool) (n : positive) (e : Z) (y : float) :
  is_finite (binary_round 24 128 s n e) = true ->
  finite32 y = true ->
  (Qabs (SF2Q (binary_round 24 128 s n e) - SF2Q (S754_finite s n e))
   <= Qabs (SF2Q y - SF2Q (S754_finite s n e)))%Q.
Proof.
  intros Hfin Hy.
  set (c := Z.min e (-149)).
  assert (Hce : c <= e) by (unfold c; lia).
  assert (Hc : c <= -149) by (unfold c; lia).
  rewrite (binary_round32_scaled s n e c Hce Hc Hfin).
  rewrite (SF2Q_scaled c s n e Hce).
  assert (HyQ : (SF2Q y == inject_Z (scaled c y) * 2 ^ c)%Q).
  { destruct y as [sy | sy | | sy my ey]; try discriminate Hy.
    - cbn [SF2Q scaled]. symmetry. apply Qmult_0_l.
    - apply SF2Q_scaled. apply finite32_inv in Hy. lia. }
  rewrite HyQ, !Qabs_scaled_diff.
  apply Qmult_le_compat_r; [| apply Qlt_le_weak, Qpow2_pos].
  rewrite <- Zle_Qle. cbn [scaled].
  set (E := Z.max (Zpos (digits2_pos n) + e - 24) (-149)).
  destruct (Z.leb_spec E e) as [HEe | HEe].
  - rewrite Z.sub_diag. cbn [Z.abs]. apply Z.abs_nonneg.
  - pose proof (round_shift_nearest_float (Zpos n) e c E
                  (match s with true => SFopp y | false => y end)
                  ltac:(lia) HEe Hce Hc eq_refl) as H.
    assert (Hy' : finite32 (if s then SFopp y else y) = true).
    { destruct s; [| exact Hy]. destruct y; try discriminate Hy; exact Hy. }
    specialize (H Hy').
    destruct s; cbn [cond_Zopp] in *.
    + replace (scaled c (SFopp y)) with (- scaled c y) in H.
      * lia.
      * destruct y as [sy | sy | | sy my ey]; try reflexivity.
        cbn [SFopp scaled]. destruct sy; cbn [cond_Zopp negb]; lia.
    + exact H.
Qed.

(** C10 - the [double] overload narrows first: for every [double] [x],
    [color_modulo(x)] is [color_modulo(static_cast<float>(x))], and the
    narrowed argument and the result are binary32 numbers, so the
    quantisation is computed in single precision.  The narrowing is the
    conversion of C++: an infinity or NaN is passed on as it is; a finite [x]
    overflows, to an infinity, exactly when [|x| >= 2^128 - 2^103], the
    midpoint between the largest [float] and 2^128; and otherwise it becomes
    a finite [float] nearest to [x], i.e. no finite [float] is nearer. *)
Theorem color_modulo_double_narrows (x : double) :
  color_modulo_double x = color_modulo (float_of_double x) /\
  valid_binary 24 128 (float_of_double x) = true /\
  valid_binary 24 128 (color_modulo_double x) = true /\
  (is_finite x = false -> float_of_double x = x) /\
  (is_finite x = true ->
   (is_finite (float_of_double x) = false <->
    (inject_Z ((2 ^ 25 - 1) * 2 ^ 103) <= Qabs (SF2Q x))%Q) /\
   (is_finite (float_of_double x) = true ->
    forall y : float, finite32 y = true ->
      (Qabs (SF2Q (float_of_double x) - SF2Q x) <= Qabs (SF2Q y - SF2Q x))%Q)).
Proof.
  split; [reflexivity |]. split; [apply float_of_double_valid |].
  split; [unfold color_modulo_double; apply color_modulo_valid, float_of_double_valid |].
  split.
  - destruct x as [s | s | | s m e]; try discriminate; reflexivity.
  - intros Hx. destruct x as [s | s | | s m e]; try discriminate Hx.
    + cbn [float_of_double is_finite SF2Q]. split.
      * split; [intro H; discriminate H |].
        intro H. exfalso. revert H. apply Qlt_not_le. reflexivity.
      * intros _ y _. apply Qabs_nonneg.
    + cbn [float_of_double]. split.
      * rewrite Qabs_SF2Q_finite, <- beyond_float_range_Q, binary_round32_finite_iff.
        apply negb_false_iff.
      * intros Hfin y Hy. apply binary_round32_nearest; assumption.
Qed.

(** The narrowing is observable: 1 + 2^-30 is a [double] but not a [float];
    it is quantised like 1.0f. *)
Example color_modulo_double_rounds_argument :
  color_modulo_double (S754_finite false (2 ^ 52 + 2 ^ 22) (-52))
  = color_modulo (float_of_Z 1).
Proof. reflexivity. Qed.

(* ------------------------------------------------------------------ *)
(** ** Further properties of [color_modulo] *)

Lemma round32u_pos (u : Z) : 0 < u -> 0 < round32u u.
Proof.
  intro Hu. unfold round32u.
  destruct (Z.leb_spec (Zdigits2 u - 24) 0) as [Hk | Hk]; [exact Hu |].
  pose proof (round_shift_bounds u (Zdigits2 u - 24) ltac:(lia) Hk) as Hq.
  destruct (Zdigits2_bounds u Hu) as [_ Hb].
  pose proof (pow2_pos (Zdigits2 u - 24) ltac:(lia)) as Hp.
  assert (2 ^ 23 <= u / 2 ^ (Zdigits2 u - 24)).
  { apply Z.div_le_lower_bound; [lia |].
    rewrite Z.mul_comm, <- Z.pow_add_r by lia.
    replace (23 + (Zdigits2 u - 24)) with (Zdigits2 u - 1) by lia. lia. }
  change (2 ^ 23) with 8388608 in *. nia.
Qed.

Lemma binary_normalize_nonneg (z e : Z) :
  0 <= z -> is_finite (binary_normalize 24 128 z e false) = true ->
  binary_normalize 24 128 z e false = S754_zero false \/
  exists m e', binary_normalize 24 128 z e false = S754_finite false m e'.
Proof.
  intros Hz. destruct z as [| p | p]; try lia; cbn [binary_normalize].
  - intros _. left. reflexivity.
  - rewrite binary_round_correct by lia. unfold SFencode.
    destruct (fst (round_mant_exp 24 128 (Zpos p) e)) as [| m | m];
      try (intro H; discriminate H).
    + intros _. left. reflexivity.
    + destruct (_ <=? _); [| intro H; discriminate H].
      intros _. right. exists m, (snd (round_mant_exp 24 128 (Zpos p) e)). reflexivity.
Qed.

(** The result of [color_modulo] on a finite [float] never carries a sign: it
    is [+0] or a positive [float], never [-0], because the sum
    [fmod(x, m) + m] is positive and [std::fmod] takes the sign of its first
    argument. *)
Theorem color_modulo_never_negative (x : float) :
  finite32 x = true ->
  color_modulo x = S754_zero false \/
  exists m e, color_modulo x = S754_finite false m e.
Proof.
  intro Hx. pose proof Um_bounds as HUm.
  destruct (color_modulo_ulps x Hx) as [Hfin _].
  unfold color_modulo in *.
  destruct (fmodf_color_m x Hx) as [Hf1 Hu1].
  assert (Hr1 : Z.abs (Z.rem (ulps x) Um) < Um).
  { pose proof (Z.rem_bound_abs (ulps x) Um ltac:(lia)). lia. }
  destruct (fadd_color_m (fmodf x color_m) Hf1) as [Hf2 Hu2]; [rewrite Hu1; exact Hr1 |].
  assert (Hpos : 0 < ulps (fadd (fmodf x color_m) color_m)).
  { rewrite Hu2. apply round32u_pos. rewrite Hu1. lia. }
  destruct (fadd (fmodf x color_m) color_m) as [s | s | | s ms es];
    try discriminate; cbn [ulps] in Hpos; try lia.
  pose proof (finite32_inv s ms es Hf2) as (He & _).
  assert (s = false).
  { destruct s; [| reflexivity]. cbn [cond_Zopp] in Hpos.
    pose proof (pow2_pos (es + 149) ltac:(lia)). lia. }
  subst s. revert Hfin. rewrite color_m_eq. unfold fmodf, SFfmod. cbn [cond_Zopp].
  intro Hfin. apply binary_normalize_nonneg.
  - apply Z.rem_nonneg; lia.
  - unfold finite32 in Hfin. apply andb_prop in Hfin. apply Hfin.
Qed.

Lemma color_modulo_never_negative_witness :
  finite32 minus_three_quarters = true /\
  (color_modulo minus_three_quarters = S754_zero false \/
   exists m e, color_modulo minus_three_quarters = S754_finite false m e).
Proof.
  split; [reflexivity | apply (color_modulo_never_negative minus_three_quarters); reflexivity].
Defined.

Lemma Q_of_ulps_bounds (x : float) :
  finite32 x = true ->
  ((0 <= SF2Q x)%Q <-> 0 <= ulps x) /\
  ((SF2Q x < SF2Q color_m)%Q <-> ulps x < Um).
Proof.
  intro Hx.
  assert (Hm : (SF2Q color_m == Um # two149)%Q) by (apply (SF2Q_ulps color_m); reflexivity).
  rewrite Hm, (SF2Q_ulps x Hx). unfold Qle, Qlt. cbn [Qnum Qden].
  pose proof two149_eq as H149. assert (0 < Zpos two149) by lia.
  split; split; intro Hq; nia.
Qed.

(** On [0 <= x < m] the quantisation is the identity up to the rounding of
    the one addition: the result is a finite [float] within 2^-23 of [x]. *)
Theorem color_modulo_near_identity (x : float) :
  finite32 x = true -> (0 <= SF2Q x)%Q -> (SF2Q x < SF2Q color_m)%Q ->
  finite32 (color_modulo x) = true /\
  (Qabs (SF2Q (color_modulo x) - SF2Q x) <= 1 # 8388608)%Q.
Proof.
  intros Hx H0 Hm. destruct (Q_of_ulps_bounds x Hx) as [Ha Hb].
  destruct (color_modulo_ulps x Hx) as [Hf _].
  split; [exact Hf |].
  rewrite (SF2Q_ulps _ Hf), (SF2Q_ulps x Hx).
  apply Qabs_ulps. apply color_modulo_fixpoint_ulps; [exact Hx |].
  split; [apply Ha, H0 | apply Hb, Hm].
Qed.

Lemma color_modulo_near_identity_witness :
  finite32 (float_of_Z 1) = true /\ (0 <= SF2Q (float_of_Z 1))%Q /\
  (SF2Q (float_of_Z 1) < SF2Q color_m)%Q /\
  finite32 (color_modulo (float_of_Z 1)) = true /\
  (Qabs (SF2Q (color_modulo (float_of_Z 1)) - SF2Q (float_of_Z 1)) <= 1 # 8388608)%Q.
Proof.
  split; [reflexivity |]. split; [vm_compute; intro H; discriminate H |].
  split; [reflexivity |].
  apply (color_modulo_near_identity (float_of_Z 1)).
  - reflexivity.
  - vm_compute. intro H. discriminate H.
  - reflexivity.
Defined.

(** The range of [color_modulo] on finite arguments, for the [double]
    overload below. *)
Lemma color_modulo_finite_in_range (x : float) :
  finite32 x = true ->
  finite32 (color_modulo x) = true /\
  (0 <= SF2Q (color_modulo x))%Q /\ (SF2Q (color_modulo x) < 256 # 255)%Q.
Proof.
  intro Hx. destruct (color_modulo_ulps x Hx) as [Hf Hu].
  pose proof Um_bounds as HUm.
  assert (Hr : 0 <= ulps (color_modulo x) < Um).
  { rewrite Hu. apply Z.mod_pos_bound. lia. }
  pose proof (finite32_below_Um _ Hf Hr) as Hg.
  split; [exact Hf |].
  rewrite (SF2Q_ulps _ Hf). unfold Qle, Qlt. cbn [Qnum Qden]. rewrite two149_eq.
  split; [lia |]. pow_consts. lia.
Qed.

(** The [double] overload, on every [double] whatsoever, returns NaN or a
    finite [float] in [0, 256/255). *)
Theorem color_modulo_double_nan_or_range (x : double) :
  color_modulo_double x = S754_nan \/
  (finite32 (color_modulo_double x) = true /\
   (0 <= SF2Q (color_modulo_double x))%Q /\
   (SF2Q (color_modulo_double x) < 256 # 255)%Q).
Proof.
  unfold color_modulo_double.
  pose proof (float_of_double_valid x) as Hv.
  destruct (is_finite (float_of_double x)) eqn:Hfin.
  - right. apply color_modulo_finite_in_range. unfold finite32. rewrite Hfin, Hv. reflexivity.
  - left. destruct (float_of_double x); try discriminate Hfin; reflexivity.
Qed.


(** Two finite [float]s of the same non-zero value are the same [float]. *)
Lemma finite32_ulps_inj (a b : float) :
  finite32 a = true -> finite32 b = true ->
  ulps a = ulps b -> ulps a <> 0 -> a = b.
Proof.
  intros Ha Hb Heq Hnz.
  destruct a as [sa | sa | | sa ma ea]; try discriminate Ha;
    [cbn [ulps] in Hnz; lia |].
  destruct b as [sb | sb | | sb mb eb]; try discriminate Hb;
    [rewrite Heq in Hnz; cbn [ulps] in Hnz; lia |].
  pose proof (finite32_inv _ _ _ Ha) as (Hea & Hda & Hna).
  pose proof (finite32_inv _ _ _ Hb) as (Heb & Hdb & Hnb).
  cbn [ulps] in Heq.
  pose proof (pow2_pos (ea + 149) ltac:(lia)) as Hpa.
  pose proof (pow2_pos (eb + 149) ltac:(lia)) as Hpb.
  assert (Hs : sa = sb).
  { destruct sa, sb; cbn [cond_Zopp] in Heq; try reflexivity; exfalso; nia. }
  subst sb.
  assert (HM : Zpos ma * 2 ^ (ea + 149) = Zpos mb * 2 ^ (eb + 149)).
  { destruct sa; cbn [cond_Zopp] in Heq; lia. }
  pose proof (Zdigits2_scale (Zpos ma) (ea + 149) ltac:(lia) ltac:(lia)) as H1.
  pose proof (Zdigits2_scale (Zpos mb) (eb + 149) ltac:(lia) ltac:(lia)) as H2.
  rewrite HM in H1. rewrite H1 in H2. cbn [Zdigits2] in H2.
  assert (He : ea = eb) by lia.
  subst eb. apply Z.mul_reg_r in HM; [| lia].
  injection HM as ->. reflexivity.
Qed.

Lemma SF2Q_eq_ulps (a b : float) :
  finite32 a = true -> finite32 b = true ->
  (SF2Q a == SF2Q b)%Q -> ulps a = ulps b.
Proof.
  intros Ha Hb. rewrite (SF2Q_ulps a Ha), (SF2Q_ulps b Hb).
  unfold Qeq. cbn [Qnum Qden]. intro H. apply Z.mul_reg_r in H; [exact H | lia].
Qed.

Lemma SF2Q_finite_nonzero (s : bool) (m : positive) (e : Z) :
  ~ (SF2Q (S754_finite s m e) == 0)%Q.
Proof.
  cbn [SF2Q]. intro H. apply Qmult_integral in H. destruct H as [H | H].
  - unfold Qeq in H. cbn in H. destruct s; cbn [cond_Zopp] in H; lia.
  - pose proof (Qpow2_pos e) as Hp. rewrite H in Hp. apply (Qlt_irrefl 0), Hp.
Qed.

(** Every finite [float] is below the overflow threshold of the narrowing. *)
Lemma finite32_within_range (s : bool) (m : positive) (e : Z) :
  finite32 (S754_finite s m e) = true -> beyond_float_range (Zpos m) e = false.
Proof.
  intro H. apply finite32_inv in H. destruct H as (He & Hd & _).
  pose proof (digits2_pos_bounds m) as Hm.
  assert (Hm24 : Zpos m < 2 ^ 24).
  { assert (2 ^ Zpos (digits2_pos m) <= 2 ^ 24) by (apply Z.pow_le_mono_r; lia). lia. }
  change (2 ^ 24) with 16777216 in Hm24.
  unfold beyond_float_range. change (2 ^ 25 - 1) with 33554431.
  destruct (Z.leb_spec e 103) as [Hle | Hgt]; apply Z.leb_gt.
  - pose proof (pow2_pos (103 - e) ltac:(lia)). nia.
  - replace (e - 103) with 1 by lia. change (2 ^ 1) with 2. lia.
Qed.

Lemma Qabs_le_0 (a : Q) : (Qabs a <= 0)%Q -> (a == 0)%Q.
Proof.
  intro H. apply Qabs_Qle_condition in H. destruct H as [H1 H2].
  apply Qle_antisym; assumption.
Qed.

(** The narrowing is exact on a [double] that holds the value of a [float]. *)
Lemma float_of_double_exact (s : bool) (m : positive) (e : Z) (y : float) :
  finite32 y = true -> (SF2Q (S754_finite s m e) == SF2Q y)%Q ->
  float_of_double (S754_finite s m e) = y.
Proof.
  intros Hy Hxy. cbn [float_of_double].
  destruct y as [sy | sy | | sy my ey]; try discriminate Hy.
  - exfalso. apply (SF2Q_finite_nonzero s m e). exact Hxy.
  - assert (Hfin : is_finite (binary_round 24 128 s m e) = true).
    { rewrite binary_round32_finite_iff. apply negb_true_iff.
      destruct (beyond_float_range (Zpos m) e) eqn:Hb; [exfalso | reflexivity].
      apply beyond_float_range_Q in Hb.
      rewrite <- Qabs_SF2Q_finite, Hxy, Qabs_SF2Q_finite in Hb.
      apply beyond_float_range_Q in Hb.
      rewrite (finite32_within_range sy my ey Hy) in Hb. discriminate Hb. }
    pose proof (binary_round_valid 24 128 ltac:(lia) s m e) as Hv.
    assert (Hr : finite32 (binary_round 24 128 s m e) = true)
      by (unfold finite32; rewrite Hfin, Hv; reflexivity).
    pose proof (binary_round32_nearest s m e _ Hfin Hy) as Hn.
    assert (H0 : (SF2Q (S754_finite sy my ey) - SF2Q (S754_finite s m e) == 0)%Q)
      by (rewrite Hxy; ring).
    rewrite H0 in Hn. apply Qabs_le_0 in Hn.
    assert (Heq : (SF2Q (binary_round 24 128 s m e) == SF2Q (S754_finite sy my ey))%Q).
    { rewrite <- Hxy. setoid_replace (SF2Q (binary_round 24 128 s m e))
        with (SF2Q (binary_round 24 128 s m e) - SF2Q (S754_finite s m e)
              + SF2Q (S754_finite s m e))%Q by ring.
      rewrite Hn. ring. }
    apply finite32_ulps_inj; [exact Hr | exact Hy | apply SF2Q_eq_ulps; assumption |].
    rewrite (SF2Q_eq_ulps _ _ Hr Hy Heq). cbn [ulps].
    apply finite32_inv in Hy. destruct Hy as (He & _).
    pose proof (pow2_pos (ey + 149) ltac:(lia)). destruct sy; cbn [cond_Zopp]; lia.
Qed.

(** On a [double] that holds the value of a [float], as every promoted
    [float] does, the narrowing is exact and the [double] overload returns
    what the [float] overload returns on that [float]. *)
Theorem color_modulo_double_on_floats (x : double) (y : float) :
  is_finite x = true -> finite32 y = true -> (SF2Q x == SF2Q y)%Q ->
  finite32 (float_of_double x) = true /\
  (SF2Q (float_of_double x) == SF2Q x)%Q /\
  color_modulo_double x = color_modulo y.
Proof.
  intros Hx Hy Hxy. unfold color_modulo_double.
  destruct x as [s | s | | s m e]; try discriminate Hx.
  - split; [reflexivity |]. split; [reflexivity |]. cbn [float_of_double].
    destruct y as [sy | sy | | sy my ey]; try discriminate Hy.
    + destruct s, sy; reflexivity.
    + exfalso. apply (SF2Q_finite_nonzero sy my ey). symmetry. exact Hxy.
  - rewrite (float_of_double_exact s m e y Hy Hxy).
    split; [exact Hy |]. split; [symmetry; exact Hxy | reflexivity].
Qed.

Lemma color_modulo_double_on_floats_witness :
  is_finite (S754_finite false (2 ^ 52) (-52)) = true /\
  finite32 (float_of_Z 1) = true /\
  (SF2Q (S754_finite false (2 ^ 52) (-52)) == SF2Q (float_of_Z 1))%Q /\
  finite32 (float_of_double (S754_finite false (2 ^ 52) (-52))) = true /\
  (SF2Q (float_of_double (S754_finite false (2 ^ 52) (-52)))
   == SF2Q (S754_finite false (2 ^ 52) (-52)))%Q /\
  color_modulo_double (S754_finite false (2 ^ 52) (-52)) = color_modulo (float_of_Z 1).
Proof.
  split; [reflexivity |]. split; [reflexivity |]. split; [reflexivity |].
  apply (color_modulo_double_on_floats (S754_finite false (2 ^ 52) (-52)) (float_of_Z 1));
    reflexivity.
Defined.

(* ================================================================== *)
(** * Proofs: render items and the preset transition *)

(** C8 - [RenderItem::Init] is an optional hook whose default does nothing:
    for a render item that does not override it, calling [Init] leaves the
    whole observable state as it was. *)
Theorem RenderItem_Init_default_noop (St : Type) (initVertexAttrib : St -> St) (s : St) :
  RenderItem.Init (RenderItem.subclass initVertexAttrib None) s = s.
Proof. reflexivity. Qed.

(** An overriding subclass does run its own body. *)
Lemma RenderItem_Init_override (St : Type) (initVertexAttrib f : St -> St) (s : St) :
  RenderItem.Init (RenderItem.subclass initVertexAttrib (Some f)) s = f s.
Proof. reflexivity. Qed.

(** C9 - [PresetTransition::Draw] is a stub: whatever the presets, the render
    context, the audio data and the frame time, it issues no rendering command
    and returns the transition object unchanged - duration, start time, random
    values and shader reference alike. *)
Theorem PresetTransition_Draw_stub
    (Shader Preset RenderContext FrameAudioData RenderCommand : Type)
    (self : PresetTransition.t Shader) (oldPreset newPreset : Preset)
    (context : RenderContext) (audioData : FrameAudioData)
    (currentFrameTime : double) :
  let after := PresetTransition.Draw RenderCommand self oldPreset newPreset
                 context audioData currentFrameTime in
  snd after = [] /\
  fst after = self /\
  PresetTransition.m_durationSeconds (fst after)
    = PresetTransition.m_durationSeconds self /\
  PresetTransition.m_transitionStartTime (fst after)
    = PresetTransition.m_transitionStartTime self /\
  PresetTransition.m_staticRandomValues (fst after)
    = PresetTransition.m_staticRandomValues self /\
  PresetTransition.m_transitionShader (fst after)
    = PresetTransition.m_transitionShader self.
Proof. cbv zeta. unfold PresetTransition.Draw. cbn [fst snd]. repeat split. Qed.

(** So a transition is exactly as far along after a [Draw] as before. *)
Lemma PresetTransition_Draw_keeps_progress
    (Shader Preset RenderContext FrameAudioData RenderCommand : Type)
    (self : PresetTransition.t Shader) (oldPreset newPreset : Preset)
    (context : RenderContext) (audioData : FrameAudioData) (now later : double) :
  let self' := fst (PresetTransition.Draw RenderCommand self oldPreset newPreset
                      context audioData now) in
  PresetTransition.IsDone self' later = PresetTransition.IsDone self later /\
  PresetTransition.Progress self' later = PresetTransition.Progress self later.
Proof. split; reflexivity. Qed.

(** A transition of two seconds started at time 1 is half way at time 2. *)
Example PresetTransition_Progress_half :
  let tr := PresetTransition.make (Shader := unit) None
              (PresetTransition.double_of_Z 2) (PresetTransition.double_of_Z 1)
              1 2 3 4 in
  PresetTransition.Progress tr (PresetTransition.double_of_Z 2)
    = S754_finite false (2 ^ 52) (-53) /\
  PresetTransition.IsDone tr (PresetTransition.double_of_Z 2) = false /\
  PresetTransition.IsDone tr (PresetTransition.double_of_Z 3) = true.
Proof. repeat split. Qed.

(* ------------------------------------------------------------------ *)
(** ** Division of finite floats *)

Lemma shr_1_ratio (n m : Z) (mrs : shr_record) :
  0 <= n -> 0 < m -> shr_ratio n m mrs -> shr_ratio n (m * 2) (shr_1 mrs).
Proof.
  intros Hn Hm [Hq Hl].
  pose proof (Z.mod_pos_bound n m Hm) as Hlow.
  assert (Hdiv : n / (m * 2) = (n / m) / 2) by (symmetry; apply Z.div_div; lia).
  assert (Hmod : n mod (m * 2) = m * ((n / m) mod 2) + n mod m)
    by (rewrite Z.rem_mul_r by lia; lia).
  destruct mrs as [q r s]. cbn [shr_m shr_r shr_s] in *.
  unfold shr_ratio. rewrite Hdiv, Hmod, <- Hq.
  assert (Hq0 : 0 <= q) by (rewrite Hq; apply Z.div_pos; lia).
  destruct q as [| [p | p |] | p]; try lia; cbn [shr_1 shr_m shr_r shr_s].
  - split; [reflexivity |]. change (0 mod 2) with 0. destruct r, s; cbn [orb]; lia.
  - split; [change (Zpos p~1) with (2 * Zpos p + 1); apply Z.div_unique with 1; lia |].
    replace (Zpos p~1 mod 2) with 1
      by (change (Zpos p~1) with (2 * Zpos p + 1); apply Z.mod_unique with (Zpos p); lia).
    destruct r, s; cbn [orb]; lia.
  - split; [change (Zpos p~0) with (2 * Zpos p); apply Z.div_unique with 0; lia |].
    replace (Zpos p~0 mod 2) with 0
      by (change (Zpos p~0) with (2 * Zpos p); apply Z.mod_unique with (Zpos p); lia).
    destruct r, s; cbn [orb]; lia.
  - split; [reflexivity |]. change (1 mod 2) with 1. destruct r, s; cbn [orb]; lia.
Qed.

Lemma shr_iter_ratio (n m : Z) (mrs : shr_record) (k : nat) :
  0 <= n -> 0 < m -> shr_ratio n m mrs ->
  shr_ratio n (m * 2 ^ Z.of_nat k) (Nat.iter k shr_1 mrs).
Proof.
  intros Hn Hm H0. induction k as [| k IH].
  - cbn [Nat.iter]. change (2 ^ Z.of_nat 0) with 1. rewrite Z.mul_1_r. exact H0.
  - rewrite Nat2Z.inj_succ, Z.pow_succ_r by lia. cbn [Nat.iter].
    replace (m * (2 * 2 ^ Z.of_nat k)) with (m * 2 ^ Z.of_nat k * 2) by lia.
    apply shr_1_ratio; [lia | | exact IH].
    pose proof (pow2_pos (Z.of_nat k) ltac:(lia)). nia.
Qed.

Lemma shr_ratio_round (n m : Z) (mrs : shr_record) :
  0 < m -> shr_ratio n m mrs ->
  round_nearest_even (shr_m mrs) (loc_of_shr_record mrs) = round_div n m.
Proof.
  intros Hm [Hq Hl]. destruct mrs as [q r s]. cbn [shr_m shr_r shr_s] in *.
  unfold round_div. rewrite <- Hq.
  destruct r, s; cbn [loc_of_shr_record round_nearest_even].
  - replace (2 * (n mod m) ?= m) with Gt by (symmetry; apply Z.compare_gt_iff; lia). reflexivity.
  - replace (2 * (n mod m) ?= m) with Eq by (symmetry; apply Z.compare_eq_iff; lia). reflexivity.
  - replace (2 * (n mod m) ?= m) with Lt by (symmetry; apply Z.compare_lt_iff; lia). reflexivity.
  - replace (2 * (n mod m) ?= m) with Lt by (symmetry; apply Z.compare_lt_iff; lia). reflexivity.
Qed.

(** The location [SFdiv] computes from the remainder of the integer division. *)
Lemma new_location_ratio (n m : Z) :
  0 <= n -> 0 < m ->
  shr_ratio n m (shr_record_of_loc (n / m) (new_location m (n mod m))).
Proof.
  intros Hn Hm. pose proof (Z.mod_pos_bound n m Hm) as Hr.
  set (r := n mod m) in *.
  assert (Hloc : new_location m r
                 = if r =? 0 then loc_Exact else loc_Inexact (2 * r ?= m)).
  { unfold new_location. destruct (Z.even m) eqn:Hev.
    - unfold new_location_even. reflexivity.
    - unfold new_location_odd. destruct (Z.eqb_spec r 0) as [H0 | H0]; [reflexivity |].
      f_equal.
      assert (Hodd : m = 2 * (m / 2) + 1).
      { pose proof (Z.div_mod m 2 ltac:(lia)) as Hdm.
        rewrite Zmod_even, Hev in Hdm. exact Hdm. }
      destruct (Z.compare_spec (2 * r + 1) m) as [He | Hl | Hg];
        destruct (Z.compare_spec (2 * r) m); try reflexivity; lia. }
  rewrite Hloc. unfold shr_ratio. fold r.
  destruct (Z.eqb_spec r 0) as [H0 | H0]; cbn [shr_record_of_loc shr_m shr_r shr_s].
  - split; [reflexivity | exact H0].
  - destruct (Z.compare_spec (2 * r) m); cbn [shr_record_of_loc shr_m shr_r shr_s];
      (split; [reflexivity | lia]).
Qed.

Lemma round_div_bounds (n m : Z) :
  n / m <= round_div n m <= n / m + 1.
Proof.
  unfold round_div.
  destruct (2 * (n mod m) ?= m); [destruct (Z.even (n / m)) | |]; lia.
Qed.

Lemma round_div_cases (n m : Z) :
  0 <= n -> 0 < m ->
  n = (n / m) * m + n mod m /\ 0 <= n mod m < m /\
  (round_div n m = n / m /\ 2 * (n mod m) <= m \/
   round_div n m = n / m + 1 /\ m <= 2 * (n mod m)).
Proof.
  intros Hn Hm. pose proof (Z.div_mod n m ltac:(lia)) as Hdm.
  pose proof (Z.mod_pos_bound n m Hm) as Hb.
  split; [lia |]. split; [exact Hb |]. unfold round_div.
  destruct (Z.compare_spec (2 * (n mod m)) m); [destruct (Z.even (n / m)) | |];
    [left | right | left | right]; split; lia.
Qed.

Section Division.
Variables prec emax : Z.

Lemma binary_round_aux_ratio (s : bool) (n m e : Z) :
  0 <= n -> 0 < m ->
  binary_round_aux prec emax s (n / m) e (new_location m (n mod m))
  = SFencode prec emax s (round_ratio_mant_exp prec emax n m e).
Proof.
  intros Hn Hm. unfold binary_round_aux, round_ratio_mant_exp.
  pose proof (new_location_ratio n m Hn Hm) as H0.
  assert (H1 : exists mrs,
             shr_fexp prec emax (n / m) e (new_location m (n mod m))
             = (mrs, Z.max (fexp prec emax (Zdigits2 (n / m) + e)) e) /\
             shr_ratio n (m * 2 ^ (Z.max (fexp prec emax (Zdigits2 (n / m) + e)) e - e)) mrs).
  { unfold shr_fexp, shr.
    destruct (fexp prec emax (Zdigits2 (n / m) + e) - e) as [| p | p] eqn:Hd.
    - eexists. split; [f_equal; lia |].
      replace (Z.max _ e - e) with 0 by lia. rewrite Z.mul_1_r. exact H0.
    - eexists. split; [f_equal; lia |].
      replace (Z.max _ e - e) with (Zpos p) by lia.
      rewrite iter_pos_nat, <- (positive_nat_Z p).
      apply shr_iter_ratio; assumption.
    - eexists. split; [f_equal; lia |].
      replace (Z.max _ e - e) with 0 by lia. rewrite Z.mul_1_r. exact H0. }
  destruct H1 as (mrs & -> & Hr).
  set (E := Z.max (fexp prec emax (Zdigits2 (n / m) + e)) e) in *.
  assert (HM : 0 < m * 2 ^ (E - e)).
  { pose proof (pow2_pos (E - e) ltac:(lia)). nia. }
  rewrite (shr_ratio_round n _ mrs HM Hr).
  set (c := round_div n (m * 2 ^ (E - e))).
  assert (Hc : 0 <= c).
  { pose proof (round_div_bounds n (m * 2 ^ (E - e))).
    assert (0 <= n / (m * 2 ^ (E - e))) by (apply Z.div_pos; lia). unfold c. lia. }
  unfold shr_fexp, shr. cbn [shr_record_of_loc].
  destruct (fexp prec emax (Zdigits2 c + E) - E) as [| p | p] eqn:Hk.
  - reflexivity.
  - replace (0 <? Zpos p) with true by reflexivity.
    rewrite iter_pos_nat.
    destruct (shr_iter_inv c (Pos.to_nat p) Hc) as [Hq _].
    rewrite Hq, positive_nat_Z. reflexivity.
  - reflexivity.
Qed.

Lemma SFdiv_finite (sx sy : bool) (mx my : positive) (ex ey : Z) :
  let e' := Z.min (fexp prec emax (Zpos (digits2_pos mx) + ex - (Zpos (digits2_pos my) + ey)))
                  (ex - ey) in
  SFdiv prec emax (S754_finite sx mx ex) (S754_finite sy my ey)
  = SFencode prec emax (xorb sx sy)
      (round_ratio_mant_exp prec emax (Zpos mx * 2 ^ (ex - ey - e')) (Zpos my) e').
Proof.
  intro e'. cbn [SFdiv]. unfold SFdiv_core_binary. cbn [Zdigits2]. fold e'.
  assert (Hs : 0 <= ex - ey - e') by (apply Z.le_0_sub, Z.le_min_r).
  clearbody e'.
  assert (Hm' : match ex - ey - e' with
                | 0 => Zpos mx
                | Zpos _ => Z.shiftl (Zpos mx) (ex - ey - e')
                | Zneg _ => 0
                end = Zpos mx * 2 ^ (ex - ey - e')).
  { destruct (ex - ey - e') as [| p | p] eqn:Hd; try lia.
    apply Z.shiftl_mul_pow2. lia. }
  rewrite Hm'. set (N := Zpos mx * 2 ^ (ex - ey - e')).
  assert (HN : 0 <= N) by (unfold N; pose proof (pow2_pos _ Hs); nia).
  rewrite <- (binary_round_aux_ratio (xorb sx sy) N (Zpos my) e' HN ltac:(lia)).
  unfold Z.div, Z.modulo. destruct (Z.div_eucl N (Zpos my)) as [q r]. reflexivity.
Qed.
End Division.

Lemma round_ratio_mant_exp_nonneg (prec emax n m e : Z) :
  0 <= n -> 0 < m -> 0 <= fst (round_ratio_mant_exp prec emax n m e).
Proof.
  intros Hn Hm. unfold round_ratio_mant_exp.
  set (E := Z.max (fexp prec emax (Zdigits2 (n / m) + e)) e).
  assert (Hp : 0 < 2 ^ (E - e)) by (apply pow2_pos; unfold E; lia).
  pose proof (round_div_bounds n (m * 2 ^ (E - e))) as Hc.
  assert (H0 : 0 <= n / (m * 2 ^ (E - e))) by (apply Z.div_pos; nia).
  cbv zeta. set (c := round_div n (m * 2 ^ (E - e))) in *.
  destruct (Z.ltb_spec 0 (fexp prec emax (Zdigits2 c + E) - E)) as [Hk | Hk]; cbn [fst].
  - apply Z.div_pos; [lia | apply pow2_pos; lia].
  - lia.
Qed.

Lemma fexp64 (e : Z) : fexp 53 1024 e = Z.max (e - 53) (-1074).
Proof. reflexivity. Qed.

Lemma Zdigits2_upper (q k : Z) : 0 <= q < 2 ^ k -> 0 <= k -> Zdigits2 q <= k.
Proof.
  intros Hq Hk. destruct (Z.eq_dec q 0) as [-> | Hne]; [cbn; lia |].
  apply Zdigits2_le; lia.
Qed.

Lemma Zdigits2_lower (q k : Z) : 0 <= k -> 2 ^ k <= q -> k + 1 <= Zdigits2 q.
Proof.
  intros Hk Hq. pose proof (pow2_pos k Hk) as Hp.
  destruct (Zdigits2_bounds q ltac:(lia)) as [Hd Hb].
  destruct (Z.le_gt_cases (k + 1) (Zdigits2 q)) as [Hle | Hgt]; [exact Hle | exfalso].
  assert (2 ^ Zdigits2 q <= 2 ^ k) by (apply pow2_le_mono; lia). lia.
Qed.

Lemma bounded64_inv (m : positive) (e : Z) :
  bounded 53 1024 m e = true ->
  -1074 <= e <= 971 /\ Zpos (digits2_pos m) <= 53 /\
  (-1074 < e -> Zpos (digits2_pos m) = 53).
Proof.
  unfold bounded, canonical_mantissa. rewrite fexp64. intro H.
  apply andb_prop in H. destruct H as [Hc Hb].
  apply Z.eqb_eq in Hc. apply Z.leb_le in Hb. lia.
Qed.

Lemma div_pow2_lower (q a b : Z) :
  0 <= b <= a -> 2 ^ a <= q -> 2 ^ (a - b) <= q / 2 ^ b.
Proof.
  intros Hab Hq. pose proof (pow2_pos b ltac:(lia)).
  apply Z.div_le_lower_bound; [lia |].
  rewrite Z.mul_comm, <- pow2_split by lia. replace (a - b + b) with a by lia. exact Hq.
Qed.

(** The quotient of two well-formed positive doubles, the dividend below the
    divisor: the rounded result has an exponent below that of 1.0. *)
Lemma div_lt_one (ms md : positive) (es ed : Z) :
  bounded 53 1024 ms es = true -> bounded 53 1024 md ed = true ->
  es < ed \/ (es = ed /\ Zpos ms < Zpos md) ->
  let e' := Z.min (fexp 53 1024 (Zpos (digits2_pos ms) + es - (Zpos (digits2_pos md) + ed)))
                  (es - ed) in
  snd (round_ratio_mant_exp 53 1024 (Zpos ms * 2 ^ (es - ed - e')) (Zpos md) e') < -52.
Proof.
  intros Hs Hd Hlt e'.
  destruct (bounded64_inv ms es Hs) as (Hes & Hd1 & Hn1).
  destruct (bounded64_inv md ed Hd) as (Hed & Hd2 & Hn2).
  pose proof (digits2_pos_bounds ms) as Hbs. pose proof (digits2_pos_bounds md) as Hbd.
  set (d1 := Zpos (digits2_pos ms)) in *. set (d2 := Zpos (digits2_pos md)) in *.
  assert (Hd1p : 0 < d1) by (unfold d1; lia). assert (Hd2p : 0 < d2) by (unfold d2; lia).
  set (a := es - ed) in *.
  assert (Hj : d1 + es - (d2 + ed) <= 0).
  { destruct Hlt as [Hl | [He Hm]].
    - specialize (Hn2 ltac:(lia)). unfold a. lia.
    - assert (d1 - 1 < d2); [| lia].
      apply pow2_lt_inv; [lia |]. lia. }
  assert (He' : e' <= -53 /\ e' <= a /\ -1074 - 2045 <= e').
  { unfold e'. rewrite fexp64. fold a. lia. }
  clearbody e'. destruct He' as (He1 & He2 & He3).
  unfold round_ratio_mant_exp. rewrite !fexp64.
  set (N := Zpos ms * 2 ^ (a - e')). set (D := Zpos md).
  pose proof (pow2_pos (a - e') ltac:(lia)) as HW.
  pose proof (pow2_pos (- a) ltac:(lia)) as HYa.
  (* Q <= 1 - 2^-53, on integers *)
  assert (HP : D * 2 ^ (- e') = D * 2 ^ (- a) * 2 ^ (a - e')).
  { rewrite <- Z.mul_assoc, <- pow2_split by lia. do 2 f_equal. lia. }
  assert (Hgap : 2 ^ 53 * Zpos ms <= (2 ^ 53 - 1) * (D * 2 ^ (- a))).
  { unfold D. destruct Hlt as [Hl | [He Hm]].
    - specialize (Hn2 ltac:(lia)).
      assert (2 ^ 1 <= 2 ^ (- a)) by (apply pow2_le_mono; lia).
      assert (2 ^ d1 <= 2 ^ 53) by (apply pow2_le_mono; lia).
      rewrite Hn2 in Hbd. change (2 ^ (53 - 1)) with 4503599627370496 in Hbd.
      change (2 ^ 1) with 2 in *. change (2 ^ 53) with 9007199254740992 in *. nia.
    - replace (- a) with 0 by lia. change (2 ^ 0) with 1.
      assert (2 ^ d2 <= 2 ^ 53) by (apply pow2_le_mono; lia).
      change (2 ^ 53) with 9007199254740992 in *. nia. }
  assert (HQ : 2 ^ 53 * N <= (2 ^ 53 - 1) * (D * 2 ^ (- e'))).
  { rewrite HP. unfold N. change (2 ^ 53) with 9007199254740992 in *. nia. }
  assert (HDpos : 0 < D) by (unfold D; lia).
  assert (HNpos : 0 <= N) by (unfold N; nia).
  pose proof (pow2_pos (- e') ltac:(lia)) as HPe.
  assert (HNP : N < D * 2 ^ (- e')).
  { change (2 ^ 53) with 9007199254740992 in HQ. nia. }
  (* the integer quotient has at most -e' digits *)
  assert (Hq0 : 0 <= N / D < 2 ^ (- e')).
  { split; [apply Z.div_pos; lia | apply Z.div_lt_upper_bound; lia]. }
  assert (Hdq : Zdigits2 (N / D) <= - e') by (apply Zdigits2_upper; lia).
  set (E := Z.max (Z.max (Zdigits2 (N / D) + e' - 53) (-1074)) e') in *.
  assert (HE : e' <= E <= -53) by (unfold E; lia).
  clearbody E.
  set (M := D * 2 ^ (E - e')).
  pose proof (pow2_pos (E - e') ltac:(lia)) as HEe.
  assert (HM : 0 < M) by (unfold M; nia).
  assert (HPM : D * 2 ^ (- e') = M * 2 ^ (- E)).
  { unfold M. rewrite <- Z.mul_assoc, <- pow2_split by lia. do 2 f_equal. lia. }
  pose proof (pow2_pos (- E) ltac:(lia)) as HpE.
  assert (HT : 2 ^ (- E) = 2 ^ 53 * 2 ^ (- E - 53)).
  { rewrite <- pow2_split by lia. f_equal. lia. }
  pose proof (pow2_pos (- E - 53) ltac:(lia)) as HpT.
  destruct (round_div_cases N M HNpos HM) as (Hdm & Hr & Hc).
  assert (Hc0 : N / M <= 2 ^ (- E) - 1).
  { assert (N / M < 2 ^ (- E)); [| lia].
    apply Z.div_lt_upper_bound; [lia |]. rewrite <- HPM. exact HNP. }
  assert (Hcb : 0 <= round_div N M < 2 ^ (- E)).
  { assert (0 <= N / M) by (apply Z.div_pos; lia).
    destruct Hc as [[Hc _] | [Hc Hup]]; rewrite Hc; [lia |].
    split; [lia |].
    destruct (Z.eq_dec (N / M) (2 ^ (- E) - 1)) as [Hg | Hg]; [exfalso | lia].
    rewrite HPM, HT in HQ. rewrite Hg, HT in Hdm.
    change (2 ^ 53) with 9007199254740992 in *.
    set (T := 2 ^ (- E - 53)) in *. clearbody T.
    set (rem := N mod M) in *. clearbody rem. nia. }
  set (c := round_div N M) in *. clearbody c.
  assert (Hdc : Zdigits2 c <= - E) by (apply Zdigits2_upper; lia).
  destruct (Z.ltb_spec 0 (Z.max (Zdigits2 c + E - 53) (-1074) - E)); cbn [snd]; lia.
Qed.

(** The quotient of two well-formed positive doubles, the dividend at least
    the divisor: the rounded result is 1.0 or above. *)
Lemma div_ge_one (ms md : positive) (es ed : Z) :
  bounded 53 1024 ms es = true -> bounded 53 1024 md ed = true ->
  ed < es \/ (es = ed /\ Zpos md <= Zpos ms) ->
  let e' := Z.min (fexp 53 1024 (Zpos (digits2_pos ms) + es - (Zpos (digits2_pos md) + ed)))
                  (es - ed) in
  let me := round_ratio_mant_exp 53 1024 (Zpos ms * 2 ^ (es - ed - e')) (Zpos md) e' in
  0 < fst me /\ (-52 < snd me \/ (snd me = -52 /\ 2 ^ 52 <= fst me)).
Proof.
  intros Hs Hd Hge e'.
  destruct (bounded64_inv ms es Hs) as (Hes & Hd1 & Hn1).
  destruct (bounded64_inv md ed Hd) as (Hed & Hd2 & Hn2).
  pose proof (digits2_pos_bounds ms) as Hbs. pose proof (digits2_pos_bounds md) as Hbd.
  set (d1 := Zpos (digits2_pos ms)) in *. set (d2 := Zpos (digits2_pos md)) in *.
  assert (Hd1p : 0 < d1) by (unfold d1; lia). assert (Hd2p : 0 < d2) by (unfold d2; lia).
  set (a := es - ed) in *.
  assert (Ha : 0 <= a) by lia.
  assert (Hj : 0 <= d1 + es - (d2 + ed)).
  { destruct Hge as [Hl | [He Hm]].
    - specialize (Hn1 ltac:(lia)). unfold a in *. lia.
    - assert (d2 - 1 < d1); [| lia].
      apply pow2_lt_inv; [lia |]. lia. }
  assert (He' : e' = Z.min (d1 - d2 + a - 53) a).
  { unfold e'. rewrite fexp64. fold a. lia. }
  clearbody e'.
  assert (He1 : -53 <= e' <= a) by lia.
  cbv zeta. unfold round_ratio_mant_exp. rewrite !fexp64.
  set (N := Zpos ms * 2 ^ (a - e')). set (D := Zpos md).
  pose proof (pow2_pos (a - e') ltac:(lia)) as HW.
  pose proof (pow2_pos a Ha) as Hpa.
  assert (HDpos : 0 < D) by (unfold D; lia).
  assert (HNpos : 0 <= N) by (unfold N; nia).
  (* the dividend is at least the divisor *)
  assert (Hxy : D <= Zpos ms * 2 ^ a).
  { unfold D. destruct Hge as [Hl | [He Hm]].
    - specialize (Hn1 ltac:(lia)). rewrite Hn1 in Hbs.
      assert (2 ^ 1 <= 2 ^ a) by (apply pow2_le_mono; lia).
      assert (2 ^ d2 <= 2 ^ 53) by (apply pow2_le_mono; lia).
      change (2 ^ (53 - 1)) with 4503599627370496 in Hbs.
      change (2 ^ 1) with 2 in *. change (2 ^ 53) with 9007199254740992 in *. nia.
    - replace a with 0 by lia. change (2 ^ 0) with 1. lia. }
  assert (HND : D <= N).
  { destruct (Z.le_gt_cases e' 0) as [Hle | Hgt].
    - unfold N. replace (a - e') with (a + - e') by lia. rewrite pow2_split by lia.
      pose proof (pow2_pos (- e') ltac:(lia)). nia.
    - (* e' > 0: the shift leaves at least 53 bits in the quotient *)
      assert (2 ^ (53 - d1 + d2) <= 2 ^ (a - e')) by (apply pow2_le_mono; lia).
      assert (2 ^ (d1 - 1) * 2 ^ (53 - d1 + d2) = 2 ^ 52 * 2 ^ d2).
      { rewrite <- !pow2_split by lia. f_equal. lia. }
      pose proof (pow2_pos d2 ltac:(lia)).
      unfold N, D. change (2 ^ 52) with 4503599627370496 in *. nia. }
  assert (Hq0 : 1 <= N / D) by (apply Z.div_le_lower_bound; lia).
  (* for e' <= 0 the quotient is at least 2^-e' *)
  assert (Hq0' : e' <= 0 -> 2 ^ (- e') <= N / D).
  { intro Hle. pose proof (pow2_pos (- e') ltac:(lia)).
    apply Z.div_le_lower_bound; [lia |].
    unfold N. replace (a - e') with (a + - e') by lia. rewrite pow2_split by lia. nia. }
  destruct (Zdigits2_bounds (N / D) ltac:(lia)) as [Hdq0 Hbq0].
  assert (Hdq : e' <= 0 -> 1 <= Zdigits2 (N / D) + e').
  { intro Hle. pose proof (Zdigits2_lower (N / D) (- e') ltac:(lia) (Hq0' Hle)). lia. }
  set (dq := Zdigits2 (N / D)) in *.
  set (E := Z.max (Z.max (dq + e' - 53) (-1074)) e') in *.
  assert (HE : -52 <= E /\ e' <= E) by (unfold E; lia).
  assert (HEcases : E = e' \/ (e' < E /\ E - e' = dq - 53)) by (unfold E; lia).
  clearbody E. destruct HE as [HE52 HEe].
  set (M := D * 2 ^ (E - e')).
  pose proof (pow2_pos (E - e') ltac:(lia)) as HpEe.
  assert (HM : 0 < M) by (unfold M; nia).
  assert (HdivM : N / M = (N / D) / 2 ^ (E - e')).
  { unfold M. symmetry. apply Z.div_div; lia. }
  (* the truncated mantissa is positive, and at least 2^52 at exponent -52 *)
  assert (Hc0 : 1 <= N / M).
  { rewrite HdivM. destruct HEcases as [-> | [Hlt Hk]].
    - rewrite Z.sub_diag. change (2 ^ 0) with 1. rewrite Z.div_1_r. exact Hq0.
    - rewrite Hk. pose proof (div_pow2_lower (N / D) (dq - 1) (dq - 53) ltac:(lia) ltac:(lia)).
      replace (dq - 1 - (dq - 53)) with 52 in H by lia.
      change (2 ^ 52) with 4503599627370496 in H. lia. }
  assert (Hc52 : E = -52 -> 2 ^ 52 <= N / M).
  { intro HEq. rewrite HdivM.
    assert (Hle : e' <= 0) by lia.
    pose proof (div_pow2_lower (N / D) (- e') (E - e') ltac:(lia) (Hq0' Hle)) as H.
    replace (- e' - (E - e')) with 52 in H by lia. exact H. }
  pose proof (round_div_bounds N M) as Hcb.
  set (c := round_div N M) in *. clearbody c.
  assert (Hcpos : 1 <= c) by lia.
  destruct (Zdigits2_bounds c ltac:(lia)) as [Hdc Hbc].
  set (dc := Zdigits2 c) in *.
  destruct (Z.ltb_spec 0 (Z.max (dc + E - 53) (-1074) - E)) as [Hk2 | Hk2]; cbn [fst snd].
  - assert (Hk : Z.max (dc + E - 53) (-1074) - E = dc - 53) by lia.
    rewrite Hk in *. split; [| left; lia].
    pose proof (div_pow2_lower c (dc - 1) (dc - 53) ltac:(lia) ltac:(lia)) as H.
    replace (dc - 1 - (dc - 53)) with 52 in H by lia.
    change (2 ^ 52) with 4503599627370496 in H. lia.
  - split; [lia |].
    destruct (Z.eq_dec E (-52)) as [HEq | HEq]; [right | left; lia].
    split; [exact HEq |]. specialize (Hc52 HEq). lia.
Qed.

(* ------------------------------------------------------------------ *)
(** ** [PresetTransition::Progress] and [PresetTransition::IsDone] *)

Module PresetTransitionFacts.
Import PresetTransition.

Lemma SFcompare_pos_antisym (m1 m2 : positive) (e1 e2 : Z) :
  SFcompare (S754_finite false m2 e2) (S754_finite false m1 e1)
  = option_map CompOpp (SFcompare (S754_finite false m1 e1) (S754_finite false m2 e2)).
Proof.
  cbn [SFcompare option_map]. f_equal.
  rewrite (Z.compare_antisym e1 e2).
  destruct (e1 ?= e2); cbn [CompOpp]; try reflexivity.
  rewrite Pos.compare_cont_antisym. reflexivity.
Qed.

(** [std::min(std::max(q, 0.0), 1.0)]: NaN stays NaN, anything else ends up
    between 0 and 1. *)
Lemma clamp_unit (q : double) :
  (q = S754_nan -> dmin (dmax q (double_of_Z 0)) (double_of_Z 1) = S754_nan) /\
  (q <> S754_nan ->
   SFleb (double_of_Z 0) (dmin (dmax q (double_of_Z 0)) (double_of_Z 1)) = true /\
   SFleb (dmin (dmax q (double_of_Z 0)) (double_of_Z 1)) (double_of_Z 1) = true).
Proof.
  split; [intros ->; reflexivity | intro Hq].
  destruct q as [s | [|] | | [|] m e]; try (split; reflexivity); try congruence.
  unfold dmax. change (SFltb (S754_finite false m e) (double_of_Z 0)) with false.
  cbv iota. unfold dmin, SFltb, SFleb.
  change (double_of_Z 1) with (S754_finite false 4503599627370496 (-52)).
  rewrite (SFcompare_pos_antisym m 4503599627370496 e (-52)).
  destruct (SFcompare (S754_finite false m e) (S754_finite false 4503599627370496 (-52)))
    as [[| |] |] eqn:Hc; cbn [option_map CompOpp]; try (split; reflexivity).
  - rewrite Hc. split; reflexivity.
  - rewrite Hc. split; reflexivity.
  - cbn [SFcompare] in Hc. discriminate Hc.
Qed.

(** [Progress] is NaN when the quotient is (a NaN time, or 0/0 or
    infinity/infinity), and lies between 0 and 1 otherwise. *)
Theorem Progress_clamped (Shader : Type) (self : t Shader) (currentFrameTime : double) :
  let q := ddiv (dsub currentFrameTime (m_transitionStartTime self))
                (m_durationSeconds self) in
  (q = S754_nan -> Progress self currentFrameTime = S754_nan) /\
  (q <> S754_nan ->
   SFleb (double_of_Z 0) (Progress self currentFrameTime) = true /\
   SFleb (Progress self currentFrameTime) (double_of_Z 1) = true).
Proof. cbv zeta. unfold Progress. apply clamp_unit. Qed.

(** A duration of zero is not guarded in [Progress]: with time elapsed the
    division gives an infinity and the result is 1 (0 before the start, and
    the other way round for a duration of -0); at the start time itself it is
    0/0, and the result is NaN. *)
Theorem Progress_zero_duration (Shader : Type) (self : t Shader)
    (currentFrameTime : double) (sd : bool) :
  m_durationSeconds self = S754_zero sd ->
  Progress self currentFrameTime =
  match dsub currentFrameTime (m_transitionStartTime self) with
  | S754_zero _ | S754_nan => S754_nan
  | S754_infinity s | S754_finite s _ _ =>
      if xorb s sd then double_of_Z 0 else double_of_Z 1
  end.
Proof.
  intro Hd. unfold Progress. rewrite Hd.
  destruct (dsub currentFrameTime (m_transitionStartTime self)) as [s | s | | s m e];
    destruct sd; try destruct s; reflexivity.
Qed.

Lemma pos_compare_cont_Z (c m : positive) :
  Pos.compare_cont Eq c m = (Zpos c ?= Zpos m).
Proof. reflexivity. Qed.

(** Clamping a rounded non-negative result: it becomes 1.0 exactly when the
    result is 1.0 or above. *)
Lemma clamp01_encode (mf ef : Z) :
  0 <= mf ->
  (0 < mf /\ (-52 < ef \/ (ef = -52 /\ 2 ^ 52 <= mf)) ->
   dmin (dmax (SFencode 53 1024 false (mf, ef)) (double_of_Z 0)) (double_of_Z 1) = double_of_Z 1) /\
  (ef < -52 -> dmin (dmax (SFencode 53 1024 false (mf, ef)) (double_of_Z 0)) (double_of_Z 1) <> double_of_Z 1).
Proof.
  intro H0. unfold SFencode. cbn [fst snd].
  destruct mf as [| m | m]; try lia.
  - split; [lia | intros _ H; discriminate H].
  - destruct (Z.leb_spec ef (1024 - 53)) as [Hle | Hgt].
    + unfold dmax.
      change (SFltb (S754_finite false m ef) (double_of_Z 0)) with false. cbv iota.
      unfold dmin, SFltb.
      change (double_of_Z 1) with (S754_finite false 4503599627370496 (-52)).
      cbn [SFcompare]. split.
      * intros [_ [Hlt | [He Hm]]].
        -- replace (-52 ?= ef) with Lt by (symmetry; apply Z.compare_lt_iff; lia). reflexivity.
        -- subst ef. rewrite Z.compare_refl.
           change (2 ^ 52) with 4503599627370496 in Hm.
           rewrite (pos_compare_cont_Z 4503599627370496 m).
           destruct (Z.compare_spec 4503599627370496 (Zpos m)) as [Heq | Hl | Hg].
           ++ injection Heq as <-. reflexivity.
           ++ reflexivity.
           ++ exfalso. exact (Z.lt_irrefl _ (Z.lt_le_trans _ _ _ Hg Hm)).
      * intro Hlt.
        replace (-52 ?= ef) with Gt by (symmetry; apply Z.compare_gt_iff; lia).
        intro H. injection H as _ He. rewrite He in Hlt. exact (Z.lt_irrefl _ Hlt).
    + split; [intros _; reflexivity |].
      intro Hlt. exfalso. apply (Z.lt_irrefl ef).
      apply Z.lt_trans with (-52); [exact Hlt |].
      apply Z.lt_trans with (1024 - 53); [reflexivity | exact Hgt].
Qed.

Lemma SFsub_valid (x y : double) :
  valid_binary 53 1024 x = true -> valid_binary 53 1024 y = true ->
  valid_binary 53 1024 (SFsub 53 1024 x y) = true.
Proof.
  intros Hx Hy.
  destruct x as [sx | sx | | sx mx ex]; destruct y as [sy | sy | | sy my ey];
    try destruct sx; try destruct sy; try reflexivity; try assumption.
  all: cbn [SFsub]; unfold binary_normalize;
    match goal with
    | |- context [match ?z with 0 => _ | Zpos _ => _ | Zneg _ => _ end] =>
        destruct z; try reflexivity; apply binary_round_valid; lia
    end.
Qed.

(** [IsDone] and [Progress] agree: for a positive finite duration, and times
    that are [double]s, the transition is done exactly when its progress is
    1.0.  So the division never rounds a quotient below 1 up to 1. *)
Theorem IsDone_iff_Progress_one (Shader : Type) (self : t Shader)
    (currentFrameTime : double) (md : positive) (ed : Z) :
  m_durationSeconds self = S754_finite false md ed ->
  valid_binary 53 1024 (m_durationSeconds self) = true ->
  valid_binary 53 1024 (m_transitionStartTime self) = true ->
  valid_binary 53 1024 currentFrameTime = true ->
  (IsDone self currentFrameTime = true <->
   Progress self currentFrameTime = double_of_Z 1).
Proof.
  intros Hd Hvd Hvs Hvt. unfold IsDone, Progress.
  pose proof (SFsub_valid _ _ Hvt Hvs) as Hv. fold dsub in Hv.
  rewrite Hd in *. cbn [valid_binary] in Hvd.
  change (SFleb (S754_finite false md ed) (double_of_Z 0)) with false. cbn [orb].
  destruct (dsub currentFrameTime (m_transitionStartTime self)) as [ss | ss | | ss ms es].
  - (* no time elapsed *)
    destruct ss; split; intro H; discriminate H.
  - destruct ss; split; intro H; try discriminate H; reflexivity.
  - split; intro H; discriminate H.
  - cbn [valid_binary] in Hv. unfold ddiv.
    pose proof (SFdiv_finite 53 1024 ss false ms md es ed) as Hdiv. cbv zeta in Hdiv.
    rewrite Hdiv. clear Hdiv. rewrite xorb_false_r.
    destruct ss.
    + (* before the start *)
      split; [intro H; discriminate H |].
      unfold SFencode.
      destruct (fst _); [| destruct (_ <=? _) |]; intro H; discriminate H.
    + assert (Hcmp : SFleb (S754_finite false md ed) (S754_finite false ms es) = true
                     <-> (ed < es \/ (es = ed /\ Zpos md <= Zpos ms))).
      { unfold SFleb. cbn [SFcompare].
        destruct (Z.compare_spec ed es) as [He | Hl | Hg].
        - subst es. rewrite (pos_compare_cont_Z md ms).
          destruct (Z.compare_spec (Zpos md) (Zpos ms)) as [Heq | Hlt | Hgt];
            split; intro H; try reflexivity; try discriminate H; lia.
        - split; [intros _; lia | reflexivity].
        - split; [intro H; discriminate H | lia]. }
      rewrite Hcmp.
      set (e' := Z.min (fexp 53 1024 (Zpos (digits2_pos ms) + es
                                     - (Zpos (digits2_pos md) + ed))) (es - ed)).
      set (me := round_ratio_mant_exp 53 1024 (Zpos ms * 2 ^ (es - ed - e')) (Zpos md) e').
      assert (Hme : 0 <= fst me).
      { apply round_ratio_mant_exp_nonneg; [| lia].
        apply Z.mul_nonneg_nonneg; [lia |]. apply Z.pow_nonneg. lia. }
      destruct (clamp01_encode (fst me) (snd me) Hme) as [Hone Hbelow].
      replace (fst me, snd me) with me in * by (destruct me; reflexivity).
      split.
      * intro Hge. apply Hone.
        pose proof (div_ge_one ms md es ed Hv Hvd Hge) as H. cbv zeta in H. exact H.
      * intro Hp.
        destruct (Z.lt_trichotomy es ed) as [Hl | [He | Hg]]; [exfalso | | left; lia].
        -- apply Hbelow; [| exact Hp].
           apply (div_lt_one ms md es ed Hv Hvd). left. exact Hl.
        -- destruct (Z.le_gt_cases (Zpos md) (Zpos ms)) as [Hle | Hgt]; [right; lia | exfalso].
           apply Hbelow; [| exact Hp].
           apply (div_lt_one ms md es ed Hv Hvd). right. lia.
Qed.



Lemma Progress_zero_duration_witness :
  m_durationSeconds (exampleTransition (double_of_Z 0) (double_of_Z 10)) = S754_zero false /\
  Progress (exampleTransition (double_of_Z 0) (double_of_Z 10)) (double_of_Z 11)
  = double_of_Z 1.
Proof.
  split; [reflexivity |].
  exact (Progress_zero_duration unit (exampleTransition (double_of_Z 0) (double_of_Z 10))
           (double_of_Z 11) false eq_refl).
Defined.

Lemma IsDone_iff_Progress_one_witness :
  m_durationSeconds (exampleTransition (double_of_Z 2) (double_of_Z 10))
  = S754_finite false 4503599627370496 (-51) /\
  valid_binary 53 1024 (double_of_Z 2) = true /\
  valid_binary 53 1024 (double_of_Z 10) = true /\
  valid_binary 53 1024 (double_of_Z 13) = true /\
  (IsDone (exampleTransition (double_of_Z 2) (double_of_Z 10)) (double_of_Z 13) = true <->
   Progress (exampleTransition (double_of_Z 2) (double_of_Z 10)) (double_of_Z 13)
   = double_of_Z 1).
Proof.
  split; [reflexivity |]. split; [reflexivity |]. split; [reflexivity |].
  split; [reflexivity |].
  apply (IsDone_iff_Progress_one unit (exampleTransition (double_of_Z 2) (double_of_Z 10))
           (double_of_Z 13) 4503599627370496 (-51)); reflexivity.
Defined.

End PresetTransitionFacts.

(* ================================================================== *)
(** * Proofs: the per-pixel mesh *)

Module PerPixelMeshFacts.
Import PerPixelMesh.

Lemma gridChanged_false (ps : PresetState) (m : t) :
  gridChanged ps m = false ->
  m_gridSizeX m = perPixelMeshX ps /\ m_gridSizeY m = perPixelMeshY ps.
Proof.
  unfold gridChanged. intro H. apply negb_false_iff, andb_prop in H.
  destruct H as [Hx Hy]. apply Z.eqb_eq in Hx, Hy. split; assumption.
Qed.

Lemma gridChanged_same (ps : PresetState) (m : t) :
  m_gridSizeX m = perPixelMeshX ps -> m_gridSizeY m = perPixelMeshY ps ->
  gridChanged ps m = false.
Proof.
  intros Hx Hy. unfold gridChanged. rewrite Hx, Hy, !Z.eqb_refl. reflexivity.
Qed.

Lemma reallocate_spec (B : Backend) (ps : PresetState) (m : t) :
  match reallocate B ps m with
  | Ok m' =>
      sized m' /\
      m_gridSizeX m' = perPixelMeshX ps /\ m_gridSizeY m' = perPixelMeshY ps /\
      allocations m' = (allocations m + 5)%nat /\
      m_perPixelSampler m' = m_perPixelSampler m /\
      m_warpShader m' = m_warpShader m
  | Raise e =>
      e = AllocationFailure /\
      allocate B (Z.to_nat (perPixelMeshX ps * perPixelMeshY ps)) = false
  end.
Proof.
  unfold reallocate. destruct (allocate B _) eqn:Ha.
  - unfold sized. cbn. rewrite !repeat_length. repeat split.
  - split; reflexivity.
Qed.

Lemma recomputeStatic_sized (B : Backend) (ps : PresetState) (m : t) :
  sized m -> sized (recomputeStatic B ps m).
Proof.
  unfold sized. cbn. rewrite length_map, length_seq. tauto.
Qed.

Lemma CalculateMesh_sized (pf : PerFrameContext) (pp : PerPixelContext) (m : t) :
  sized m -> sized (CalculateMesh pf pp m).
Proof.
  unfold sized. cbn. rewrite !length_map. tauto.
Qed.

Lemma WarpedBlit_spec (B : Backend) (ps : PresetState) (m : t) :
  let m' := fst (WarpedBlit B ps m) in
  let call := snd (WarpedBlit B ps m) in
  (sized m -> sized m') /\
  m_gridSizeX m' = m_gridSizeX m /\ m_gridSizeY m' = m_gridSizeY m /\
  m_viewportWidth m' = m_viewportWidth m /\
  m_viewportHeight m' = m_viewportHeight m /\
  allocations m' = allocations m /\
  m_perPixelSampler m' = m_perPixelSampler m /\
  m_warpShader m' = m_warpShader m /\
  dc_sampler call = m_perPixelSampler m /\
  (m_warpShader m = None -> usesDefaultShader call = true).
Proof.
  unfold WarpedBlit, GetDefaultWarpShader, usesDefaultShader.
  destruct (m_warpShader m) as [[src [p |]] |] eqn:Hs;
    destruct (m_perPixelMeshShader m); cbn; rewrite ?Hs;
    repeat (split; [first [reflexivity | intro H; exact H] |]);
    first [reflexivity | intro H; discriminate H].
Qed.

(** What [InitializeMesh] does, case by case. *)
Lemma InitializeMesh_spec (B : Backend) (ps : PresetState) (m : t) :
  sized m ->
  match InitializeMesh B ps m with
  | Ok m' =>
      sized m' /\
      m_gridSizeX m' = perPixelMeshX ps /\ m_gridSizeY m' = perPixelMeshY ps /\
      m_viewportWidth m' = viewportSizeX ps /\
      m_viewportHeight m' = viewportSizeY ps /\
      allocations m' =
        (if gridChanged ps m then allocations m + 5 else allocations m)%nat /\
      m_perPixelSampler m' = m_perPixelSampler m /\
      m_warpShader m' = m_warpShader m
  | Raise e =>
      e = AllocationFailure /\ gridChanged ps m = true /\
      allocate B (Z.to_nat (perPixelMeshX ps * perPixelMeshY ps)) = false
  end.
Proof.
  intro Hs. unfold InitializeMesh.
  destruct (gridChanged ps m) eqn:Hg; cbn [orb bind].
  - pose proof (reallocate_spec B ps m) as Hr.
    destruct (reallocate B ps m) as [m1 | e]; cbn [bind].
    + destruct Hr as (Hs1 & Hx & Hy & Ha & Hsm & Hw).
      split; [apply recomputeStatic_sized; exact Hs1 |]. cbn. auto 10.
    + destruct Hr as [He Ha]. auto.
  - destruct (gridChanged_false ps m Hg) as [Hx Hy].
    destruct (viewportChanged ps m) eqn:Hv.
    + split; [apply recomputeStatic_sized; exact Hs |]. cbn. auto 10.
    + unfold viewportChanged in Hv. apply negb_false_iff, andb_prop in Hv.
      destruct Hv as [Hw Hh]. apply Z.eqb_eq in Hw, Hh. auto 10.
Qed.

(** What one [Draw] does. *)
Lemma Draw_spec (B : Backend) (ps : PresetState) (pf : PerFrameContext)
    (pp : PerPixelContext) (m : t) :
  sized m ->
  match Draw B ps pf pp m with
  | Ok (m', call) =>
      sized m' /\
      m_gridSizeX m' = perPixelMeshX ps /\ m_gridSizeY m' = perPixelMeshY ps /\
      m_viewportWidth m' = viewportSizeX ps /\
      m_viewportHeight m' = viewportSizeY ps /\
      allocations m' =
        (if gridChanged ps m then allocations m + 5 else allocations m)%nat /\
      m_perPixelSampler m' = m_perPixelSampler m /\
      m_warpShader m' = m_warpShader m /\
      dc_sampler call = m_perPixelSampler m /\
      (m_warpShader m = None -> usesDefaultShader call = true)
  | Raise e =>
      e = AllocationFailure /\ gridChanged ps m = true /\
      allocate B (Z.to_nat (perPixelMeshX ps * perPixelMeshY ps)) = false
  end.
Proof.
  intro Hs. unfold Draw.
  pose proof (InitializeMesh_spec B ps m Hs) as Hi.
  destruct (InitializeMesh B ps m) as [m1 | e]; cbn [bind]; [| exact Hi].
  destruct Hi as (Hs1 & Hx & Hy & Hw & Hh & Ha & Hsm & Hsh).
  pose proof (WarpedBlit_spec B ps (CalculateMesh pf pp m1)) as Hb. cbv zeta in Hb.
  destruct (WarpedBlit B ps (CalculateMesh pf pp m1)) as [m' call].
  cbn [fst snd] in Hb.
  destruct Hb as (Hb0 & Hb1 & Hb2 & Hb3 & Hb4 & Hb5 & Hb6 & Hb7 & Hb8 & Hb9).
  cbn in Hb1, Hb2, Hb3, Hb4, Hb5, Hb6, Hb7, Hb8, Hb9.
  split; [apply Hb0, CalculateMesh_sized, Hs1 |].
  repeat split; try congruence.
  intro Hn. apply Hb9. congruence.
Qed.

Lemma CompileWarpShader_spec (B : Backend) (ps : PresetState) (m m' : t)
    (log : list string) :
  CompileWarpShader B ps m = Ok (m', log) ->
  (sized m -> sized m') /\ m_perPixelSampler m' = m_perPixelSampler m.
Proof.
  unfold CompileWarpShader.
  destruct (m_warpShader m) as [sh |]; [destruct (compile B (code sh)) as [p | [msg |]] |];
    intro H; inversion H; subst; split; auto.
Qed.

(** Every state the object can be in is [sized] and still has the sampler
    it was constructed with. *)
Lemma reachable_inv (B : Backend) (m : t) :
  reachable B m -> sized m /\ m_perPixelSampler m = m_perPixelSampler init.
Proof.
  induction 1 as [| ps m Hr [IHs IHp] | ps m m' log Hr [IHs IHp] Hc
                  | ps pf pp m m' call Hr [IHs IHp] Hd].
  - split; [unfold sized; cbn; repeat split | reflexivity].
  - split; [exact IHs | exact IHp].
  - destruct (CompileWarpShader_spec B ps m m' log Hc) as [Hs Hp].
    split; [auto | congruence].
  - pose proof (Draw_spec B ps pf pp m IHs) as H. rewrite Hd in H.
    destruct H as (Hs & _ & _ & _ & _ & _ & Hp & _). split; [exact Hs | congruence].
Qed.

(** C5 - buffer sizing and reallocation.  In every state the mesh object can
    be in, [InitializeMesh] either fails because the GPU could not allocate
    the buffers of a changed grid, or leaves each of the five vertex buffers
    with exactly [gridSizeX * gridSizeY] elements for the requested grid and
    allocates only if the grid resolution changed; and a second [Draw] with
    the same resolution and viewport succeeds without allocating anything. *)
Theorem PerPixelMesh_buffers_follow_grid (B : Backend) (ps : PresetState) (m : t) :
  reachable B m ->
  match InitializeMesh B ps m with
  | Ok m' =>
      sized m' /\
      m_gridSizeX m' = perPixelMeshX ps /\ m_gridSizeY m' = perPixelMeshY ps /\
      (0 <= perPixelMeshX ps -> 0 <= perPixelMeshY ps ->
       Z.of_nat (List.length (m_radiusAngleBuffer m'))
         = perPixelMeshX ps * perPixelMeshY ps /\
       Z.of_nat (List.length (m_zoomRotWarpBuffer m'))
         = perPixelMeshX ps * perPixelMeshY ps /\
       Z.of_nat (List.length (m_centerBuffer m'))
         = perPixelMeshX ps * perPixelMeshY ps /\
       Z.of_nat (List.length (m_distanceBuffer m'))
         = perPixelMeshX ps * perPixelMeshY ps /\
       Z.of_nat (List.length (m_stretchBuffer m'))
         = perPixelMeshX ps * perPixelMeshY ps) /\
      (gridChanged ps m = false -> allocations m' = allocations m)
  | Raise e =>
      gridChanged ps m = true /\
      allocate B (Z.to_nat (perPixelMeshX ps * perPixelMeshY ps)) = false
  end /\
  forall (pf pf' : PerFrameContext) (pp pp' : PerPixelContext),
    match Draw B ps pf pp m with
    | Ok (m1, _) =>
        match Draw B ps pf' pp' m1 with
        | Ok (m2, _) => allocations m2 = allocations m1
        | Raise _ => False
        end
    | Raise _ => True
    end.
Proof.
  intro Hr. destruct (reachable_inv B m Hr) as [Hs _]. split.
  - pose proof (InitializeMesh_spec B ps m Hs) as Hi.
    destruct (InitializeMesh B ps m) as [m' | e].
    + destruct Hi as (Hs' & Hx & Hy & _ & _ & Ha & _).
      split; [exact Hs' |]. split; [exact Hx |]. split; [exact Hy |]. split.
      * intros HX HY. unfold sized in Hs'. cbv zeta in Hs'. rewrite Hx, Hy in Hs'.
        destruct Hs' as (H1 & H2 & H3 & H4 & H5).
        rewrite H1, H2, H3, H4, H5, Z2Nat.id by nia. repeat split.
      * intro Hg. rewrite Hg in Ha. exact Ha.
    + destruct Hi as (_ & Hg & Ha). split; assumption.
  - intros pf pf' pp pp'.
    pose proof (Draw_spec B ps pf pp m Hs) as H1.
    destruct (Draw B ps pf pp m) as [[m1 c1] | e]; [| exact I].
    destruct H1 as (Hs1 & Hx & Hy & _).
    pose proof (Draw_spec B ps pf' pp' m1 Hs1) as H2.
    rewrite (gridChanged_same ps m1 Hx Hy) in H2.
    destruct (Draw B ps pf' pp' m1) as [[m2 c2] | e].
    + destruct H2 as (_ & _ & _ & _ & _ & Ha & _). exact Ha.
    + destruct H2 as (_ & Hg & _). discriminate Hg.
Qed.

Lemma DrawFrames_default (B : Backend) (frames : list Frame) :
  (forall n, allocate B n = true) ->
  forall m, sized m -> m_warpShader m = None ->
  exists m' calls,
    DrawFrames B frames m = Ok (m', calls) /\
    List.length calls = List.length frames /\
    forallb usesDefaultShader calls = true.
Proof.
  intro Halloc. induction frames as [| [[ps pf] pp] rest IH]; intros m Hs Hn.
  - exists m, []. repeat split.
  - cbn [DrawFrames].
    pose proof (Draw_spec B ps pf pp m Hs) as Hd.
    destruct (Draw B ps pf pp m) as [[m1 c1] | e]; cbn [bind fst snd].
    + destruct Hd as (Hs1 & _ & _ & _ & _ & _ & _ & Hsh & _ & Hdef).
      destruct (IH m1 Hs1 ltac:(congruence)) as (m2 & calls & Hok & Hlen & Hall).
      rewrite Hok. cbn [bind fst snd]. exists m2, (c1 :: calls).
      split; [reflexivity |]. split; [cbn; congruence |].
      cbn [forallb]. rewrite (Hdef Hn), Hall. reflexivity.
    + destruct Hd as (_ & _ & Ha). rewrite Halloc in Ha. discriminate Ha.
Qed.

(** C6 - graceful shader fallback.  When the warp shader fails to compile,
    [CompileWarpShader] returns normally, with the compiler's message
    in the log, and from then on every [Draw] - as long as the GPU can
    allocate the buffers, the one fatal error - returns normally and renders
    with the default warp shader. *)
Theorem PerPixelMesh_compile_failure_falls_back
    (B : Backend) (ps : PresetState) (m : t) (shader : MilkdropShader)
    (message : string) :
  reachable B m ->
  m_warpShader m = Some shader ->
  compile B (code shader) = Raise (ShaderException message) ->
  (forall n, allocate B n = true) ->
  exists m',
    CompileWarpShader B ps m = Ok (m', [message]) /\
    forall frames : list Frame,
      exists m'' calls,
        DrawFrames B frames m' = Ok (m'', calls) /\
        List.length calls = List.length frames /\
        forallb usesDefaultShader calls = true.
Proof.
  intros Hr Hsh Hc Halloc. destruct (reachable_inv B m Hr) as [Hs _].
  exists (set_warpShader None m). split.
  - unfold CompileWarpShader. rewrite Hsh, Hc. reflexivity.
  - intro frames. apply DrawFrames_default; [exact Halloc | exact Hs | reflexivity].
Qed.

(** C7 - sampling state.  In every state the mesh object can be in, a [Draw]
    that returns binds the previous frame's texture with clamp-to-edge
    addressing and linear filtering, whether it runs the preset's warp shader
    or the default one. *)
Theorem PerPixelMesh_sampler_clamp_linear (B : Backend) (m : t)
    (ps : PresetState) (pf : PerFrameContext) (pp : PerPixelContext) :
  reachable B m ->
  match Draw B ps pf pp m with
  | Ok (_, call) =>
      dc_texture call = mainTexture ps /\
      wrapMode (dc_sampler call) = GL_CLAMP_TO_EDGE /\
      filterMode (dc_sampler call) = GL_LINEAR
  | Raise e => e = AllocationFailure
  end.
Proof.
  intro Hr. destruct (reachable_inv B m Hr) as [Hs Hp].
  pose proof (Draw_spec B ps pf pp m Hs) as Hd.
  assert (Ht : match Draw B ps pf pp m with
               | Ok (_, call) => dc_texture call = mainTexture ps
               | Raise _ => True
               end).
  { unfold Draw. destruct (InitializeMesh B ps m) as [m1 | e]; cbn [bind]; [| exact I].
    unfold WarpedBlit, GetDefaultWarpShader.
    destruct (m_warpShader (CalculateMesh pf pp m1)) as [[src [p |]] |];
      destruct (m_perPixelMeshShader (CalculateMesh pf pp m1)); reflexivity. }
  destruct (Draw B ps pf pp m) as [[m' call] | e].
  - destruct Hd as (_ & _ & _ & _ & _ & _ & _ & _ & Hsam & _).
    rewrite Hsam, Hp. repeat split. exact Ht.
  - destruct Hd as [He _]. exact He.
Qed.

Lemma PerPixelMesh_buffers_follow_grid_witness :
  reachable (exampleBackend true) init /\
  (match InitializeMesh (exampleBackend true) (examplePreset 4 4) init with
   | Ok m' =>
       sized m' /\
       m_gridSizeX m' = perPixelMeshX (examplePreset 4 4) /\
       m_gridSizeY m' = perPixelMeshY (examplePreset 4 4) /\
       (0 <= perPixelMeshX (examplePreset 4 4) ->
        0 <= perPixelMeshY (examplePreset 4 4) ->
        Z.of_nat (List.length (m_radiusAngleBuffer m'))
          = perPixelMeshX (examplePreset 4 4) * perPixelMeshY (examplePreset 4 4) /\
        Z.of_nat (List.length (m_zoomRotWarpBuffer m'))
          = perPixelMeshX (examplePreset 4 4) * perPixelMeshY (examplePreset 4 4) /\
        Z.of_nat (List.length (m_centerBuffer m'))
          = perPixelMeshX (examplePreset 4 4) * perPixelMeshY (examplePreset 4 4) /\
        Z.of_nat (List.length (m_distanceBuffer m'))
          = perPixelMeshX (examplePreset 4 4) * perPixelMeshY (examplePreset 4 4) /\
        Z.of_nat (List.length (m_stretchBuffer m'))
          = perPixelMeshX (examplePreset 4 4) * perPixelMeshY (examplePreset 4 4)) /\
       (gridChanged (examplePreset 4 4) init = false ->
        allocations m' = allocations init)
   | Raise e =>
       gridChanged (examplePreset 4 4) init = true /\
       allocate (exampleBackend true)
         (Z.to_nat (perPixelMeshX (examplePreset 4 4)
                    * perPixelMeshY (examplePreset 4 4))) = false
   end /\
   forall (pf pf' : PerFrameContext) (pp pp' : PerPixelContext),
     match Draw (exampleBackend true) (examplePreset 4 4) pf pp init with
     | Ok (m1, _) =>
         match Draw (exampleBackend true) (examplePreset 4 4) pf' pp' m1 with
         | Ok (m2, _) => allocations m2 = allocations m1
         | Raise _ => False
         end
     | Raise _ => True
     end).
Proof.
  split; [apply reach_init |].
  apply (PerPixelMesh_buffers_follow_grid (exampleBackend true) (examplePreset 4 4) init).
  apply reach_init.
Defined.

Lemma PerPixelMesh_compile_failure_falls_back_witness :
  reachable (exampleBackend false) exampleLoaded /\
  m_warpShader exampleLoaded = Some exampleShader /\
  compile (exampleBackend false) (code exampleShader)
    = Raise (ShaderException "syntax error") /\
  (forall n, allocate (exampleBackend false) n = true) /\
  exists m',
    CompileWarpShader (exampleBackend false) (examplePreset 4 4) exampleLoaded
      = Ok (m', ["syntax error"%string]) /\
    forall frames : list Frame,
      exists m'' calls,
        DrawFrames (exampleBackend false) frames m' = Ok (m'', calls) /\
        List.length calls = List.length frames /\
        forallb usesDefaultShader calls = true.
Proof.
  assert (Hr : reachable (exampleBackend false) exampleLoaded)
    by (apply reach_load, reach_init).
  split; [exact Hr |]. split; [reflexivity |]. split; [reflexivity |].
  split; [intro n; reflexivity |].
  apply (PerPixelMesh_compile_failure_falls_back (exampleBackend false)
           (examplePreset 4 4) exampleLoaded exampleShader "syntax error" Hr);
    [reflexivity | reflexivity | intro n; reflexivity].
Defined.

Lemma exampleCompiled_reachable : reachable (exampleBackend true) exampleCompiled.
Proof.
  apply (reach_compile (exampleBackend true) (examplePreset 4 4) exampleLoaded
           exampleCompiled []).
  - apply reach_load, reach_init.
  - reflexivity.
Defined.

Lemma PerPixelMesh_sampler_clamp_linear_witness :
  reachable (exampleBackend true) exampleCompiled /\
  match Draw (exampleBackend true) (examplePreset 4 4) exampleFrame None
          exampleCompiled with
  | Ok (_, call) =>
      dc_texture call = mainTexture (examplePreset 4 4) /\
      wrapMode (dc_sampler call) = GL_CLAMP_TO_EDGE /\
      filterMode (dc_sampler call) = GL_LINEAR
  | Raise e => e = AllocationFailure
  end.
Proof.
  split; [exact exampleCompiled_reachable |].
  apply (PerPixelMesh_sampler_clamp_linear (exampleBackend true) exampleCompiled
           (examplePreset 4 4) exampleFrame None exampleCompiled_reachable).
Defined.

(** Both paths of [WarpedBlit] occur, each with the member sampler: the
    compiled preset shader (program 7), and - with no shader loaded - the
    default one (program 1). *)
Example Draw_custom_and_default_paths :
  (exists m', Draw (exampleBackend true) (examplePreset 4 4) exampleFrame None
                exampleCompiled
              = Ok (m', {| dc_shader := CustomShader 7; dc_texture := 3;
                           dc_sampler := {| wrapMode := GL_CLAMP_TO_EDGE;
                                            filterMode := GL_LINEAR |};
                           dc_vertices := 16 |})) /\
  (exists m', Draw (exampleBackend true) (examplePreset 4 4) exampleFrame None init
              = Ok (m', {| dc_shader := DefaultShader 1; dc_texture := 3;
                           dc_sampler := {| wrapMode := GL_CLAMP_TO_EDGE;
                                            filterMode := GL_LINEAR |};
                           dc_vertices := 16 |})).
Proof. split; eexists; reflexivity. Qed.

(** The scenario of the specification: the resolution changes from (4,4) to
    (8,8) between two [Draw] calls; all five buffers then hold 64 elements
    and five more buffers have been allocated. *)
Example Draw_resize_4_to_8 :
  match Draw (exampleBackend true) (examplePreset 4 4) exampleFrame None init with
  | Ok (m1, _) =>
      match Draw (exampleBackend true) (examplePreset 8 8) exampleFrame None m1 with
      | Ok (m2, call) =>
          List.length (m_radiusAngleBuffer m2) = 64%nat /\
          List.length (m_zoomRotWarpBuffer m2) = 64%nat /\
          List.length (m_centerBuffer m2) = 64%nat /\
          List.length (m_distanceBuffer m2) = 64%nat /\
          List.length (m_stretchBuffer m2) = 64%nat /\
          allocations m1 = 5%nat /\ allocations m2 = 10%nat /\
          dc_vertices call = 64%nat
      | Raise _ => False
      end
  | Raise _ => False
  end.
Proof. vm_compute. repeat split. Qed.

End PerPixelMeshFacts.
